(** * libsse_crypto: Cipher, Prf and SetHash

    A shallow embedding of the cipher ([src/cipher.cpp]), of the [Prf]
    template (its current revision follows the SetHash code in
    [src/set_hash.cpp], an earlier one is [unnamed/part_000]) and of
    SetHash ([src/set_hash.cpp]), and the properties of their length
    contracts, error paths, byte layout and multiset-hash algebra.

    Conventions.
    - [size_t] is the 64-bit unsigned type of the LP64 targets the library
      is built for; a [size_t] value is a [Z] in [0, SIZE_MAX] and every
      arithmetic operation of the source is followed by its wrap-around.
    - A byte buffer is a [list byte]; a pointer into a buffer is the buffer
      together with an offset.  A write that leaves the buffer is undefined
      behaviour and is reported as [Undefined].
    - A C++ exception is the [Throw] outcome; an output parameter is passed
      in and returned. *)

From Stdlib Require Import ZArith List Lia Bool Permutation.
From Stdlib Require Import Init.Byte Strings.Byte.
Import ListNotations.
Open Scope Z_scope.

(** ** Machine integers *)

Module Machine.

Definition SIZE_MAX : Z := 2 ^ 64 - 1.
Definition PTRDIFF_MAX : Z := 2 ^ 63 - 1.

(** Conversion to [size_t], [uint16_t] and [uint8_t]. *)
Definition to_size_t (z : Z) : Z := z mod 2 ^ 64.
Definition to_uint16 (z : Z) : Z := z mod 2 ^ 16.
Definition to_uint8 (z : Z) : Z := z mod 2 ^ 8.

Definition is_size_t (z : Z) : Prop := 0 <= z <= SIZE_MAX.

(** The byte stored by [tmp[length] = i] for a [uint8_t i]. *)
Definition byte_of_Z (z : Z) : byte :=
  match Byte.of_N (Z.to_N (to_uint8 z)) with
  | Some b => b
  | None => x00
  end.

(** [in.size()] of a string or the length of a buffer. *)
Definition size (l : list byte) : Z := Z.of_nat (length l).

(** No object, hence no string, is larger than [PTRDIFF_MAX] bytes. *)
Definition valid_string (s : list byte) : Prop := size s <= PTRDIFF_MAX.

End Machine.
Import Machine.

(** ** Outcomes of a call *)

Inductive exn : Type :=
| invalid_argument
| runtime_error.

Inductive outcome (A : Type) : Type :=
| Normal (a : A)
| Throw (e : exn)
| Undefined.
Arguments Normal {A} a.
Arguments Throw {A} e.
Arguments Undefined {A}.

(** ** Buffers *)

Module Buffer.

(** [memcpy(buf + off, data, |data|)]; [None] when it leaves the buffer. *)
Definition write (buf : list byte) (off : nat) (data : list byte)
  : option (list byte) :=
  if (off + length data <=? length buf)%nat
  then Some (firstn off buf ++ data ++ skipn (off + length data) buf)
  else None.

(** The contents of fresh, uninitialised storage: [uninitialized n] is
    the byte found at offset [n]. *)
Class Memory : Type := { uninitialized : nat -> byte }.

(** [new unsigned char[n]], or a default-initialised [std::array]. *)
Definition new_array {M : Memory} (n : Z) : list byte :=
  map uninitialized (seq 0 (Z.to_nat n)).

End Buffer.

(** ** Cipher ([src/cipher.cpp]) *)

Module Cipher.

(** Constants of libsodium's headers. *)
Definition crypto_generichash_blake2b_SALTBYTES : Z := 16.
Definition crypto_generichash_blake2b_PERSONALBYTES : Z := 16.
Definition crypto_generichash_blake2b_KEYBYTES : Z := 32.
Definition crypto_aead_chacha20poly1305_IETF_ABYTES : Z := 16.
Definition crypto_aead_chacha20poly1305_IETF_NPUBBYTES : Z := 12.
Definition crypto_aead_chacha20poly1305_KEYBYTES : Z := 32.

Definition NONCE_SIZE : Z := crypto_generichash_blake2b_SALTBYTES.
Definition TAG_SIZE : Z := crypto_aead_chacha20poly1305_IETF_ABYTES.
Definition kKeySize : Z := crypto_generichash_blake2b_KEYBYTES.

(** [CipherImpl::ciphertext_length]. *)
Definition ciphertext_length (plaintext_len : Z) : Z :=
  to_size_t (to_size_t (plaintext_len + NONCE_SIZE)
             + crypto_aead_chacha20poly1305_IETF_ABYTES).

(** [CipherImpl::plaintext_length]. *)
Definition plaintext_length (c_len : Z) : Z :=
  if NONCE_SIZE + crypto_aead_chacha20poly1305_IETF_ABYTES <? c_len
  then to_size_t (to_size_t (c_len - NONCE_SIZE)
                  - crypto_aead_chacha20poly1305_IETF_ABYTES)
  else 0.

(** [hash_personal__]: the characters of "encryption_key", padded with
    zero bytes to [crypto_generichash_blake2b_PERSONALBYTES]. *)
Definition hash_personal__ : list byte :=
  [x65; x6e; x63; x72; x79; x70; x74; x69; x6f; x6e; x5f; x6b; x65; x79;
   x00; x00].

(** What [cipher.cpp] calls and does not define: [random_bytes] of
    [random.hpp] and libsodium's BLAKE2b and ChaCha20-Poly1305 (IETF).
    They are an interface of the embedding.
    - [entropy n] is the n-th byte the random source delivers;
    - the hash returns the [outlen] bytes it writes to [out];
    - AEAD encryption returns the bytes it writes to [c];
    - AEAD decryption returns the bytes it writes to [m], or [None] when
      it returns -1. *)
Class Primitives : Type := {
  entropy : nat -> byte;
  crypto_generichash_blake2b_salt_personal :
    forall (outlen : Z) (in_ key salt personal : list byte), list byte;
  crypto_aead_chacha20poly1305_ietf_encrypt :
    forall (m ad npub k : list byte), list byte;
  crypto_aead_chacha20poly1305_ietf_decrypt :
    forall (c ad npub k : list byte), option (list byte)
}.

(** [CipherImpl]: the master key ([Key<kKeySize> key_]).  Locking and
    unlocking the key changes the protection of its pages, not its
    bytes. *)
Record CipherImpl : Type := { key_ : list byte }.

Section Operations.
Context {P : Primitives} {M : Buffer.Memory}.

(** [random_bytes(n, out)]: the next [n] bytes of the random source;
    the state is the number of bytes drawn so far. *)
Definition random_bytes (n : Z) (rng : nat) : list byte * nat :=
  (map entropy (seq rng (Z.to_nat n)), (rng + Z.to_nat n)%nat).

(** The sub-key derivation shared by both directions: BLAKE2b with no
    message, keyed by the master key, salted with the
    [crypto_generichash_blake2b_SALTBYTES] bytes at [salt_ptr]. *)
Definition derive_chacha_key (self : CipherImpl) (salt_ptr : list byte)
  : list byte :=
  crypto_generichash_blake2b_salt_personal
    crypto_aead_chacha20poly1305_KEYBYTES
    []
    (key_ self)
    (firstn (Z.to_nat crypto_generichash_blake2b_SALTBYTES) salt_ptr)
    hash_personal__.

(** The [crypto_aead_chacha20poly1305_IETF_NPUBBYTES] bytes libsodium
    reads at the nonce pointer. *)
Definition npub_at (ptr : list byte) : list byte :=
  firstn (Z.to_nat crypto_aead_chacha20poly1305_IETF_NPUBBYTES) ptr.

(** The nonce an encryption started in state [rng] draws, and the AEAD
    output for a plaintext under the sub-key of that nonce. *)
Definition drawn_nonce (rng : nat) : list byte :=
  fst (random_bytes NONCE_SIZE rng).

Definition sealed (self : CipherImpl) (nonce in_ : list byte)
  : list byte :=
  crypto_aead_chacha20poly1305_ietf_encrypt
    in_ [] (npub_at nonce) (derive_chacha_key self nonce).

(** [CipherImpl::encrypt] on raw buffers [(in, len, out)]: returns the
    buffer [out] points to. *)
Definition encrypt_raw (self : CipherImpl) (in_ : list byte)
           (out : list byte) (rng : nat)
  : outcome (list byte) * nat :=
  let '(nonce, rng') := random_bytes NONCE_SIZE rng in
  match Buffer.write out 0 nonce with
  | None => (Undefined, rng')
  | Some out1 =>
      let chacha_key := derive_chacha_key self out1 in
      let c := crypto_aead_chacha20poly1305_ietf_encrypt
                 in_ [] (npub_at out1) chacha_key in
      match Buffer.write out1 (Z.to_nat NONCE_SIZE) c with
      | None => (Undefined, rng')
      | Some out2 => (Normal out2, rng')
      end
  end.

(** [CipherImpl::encrypt] on strings [(in, out)]: returns
    the outcome, the value of [out] and the state of the random
    source. *)
Definition encrypt (self : CipherImpl) (in_ : list byte)
           (out : list byte) (rng : nat)
  : outcome unit * list byte * nat :=
  match in_ with
  | [] => (Throw invalid_argument, out, rng)
  | _ :: _ =>
      let len := size in_ in
      let c_len := ciphertext_length len in
      let data := Buffer.new_array c_len in
      match encrypt_raw self in_ data rng with
      | (Normal data', rng') =>
          (Normal tt, firstn (Z.to_nat c_len) data', rng')
      | (Throw e, rng') => (Throw e, out, rng')
      | (Undefined, rng') => (Undefined, out, rng')
      end
  end.

(** [CipherImpl::decrypt] on raw buffers [(in, len, out)]: returns the
    outcome and the buffer [out] points to.  When verification fails
    libsodium clears the message buffer and reports a message length of
    0, so the [sodium_memzero] of the source clears nothing more. *)
Definition decrypt_raw (self : CipherImpl) (in_ : list byte)
           (out : list byte)
  : outcome unit * list byte :=
  let len := size in_ in
  if len <? ciphertext_length 0 then (Throw invalid_argument, out)
  else
    let chacha_key := derive_chacha_key self in_ in
    let c := skipn (Z.to_nat NONCE_SIZE) in_ in
    match crypto_aead_chacha20poly1305_ietf_decrypt
            c [] (npub_at in_) chacha_key with
    | Some m =>
        match Buffer.write out 0 m with
        | Some out' => (Normal tt, out')
        | None => (Undefined, out)
        end
    | None =>
        let cleared := to_size_t (to_size_t (len - NONCE_SIZE)
                         - crypto_aead_chacha20poly1305_IETF_ABYTES) in
        match Buffer.write out 0 (repeat x00 (Z.to_nat cleared)) with
        | Some out' => (Throw runtime_error, out')
        | None => (Undefined, out)
        end
    end.

(** [CipherImpl::decrypt] on strings [(in, out)]: returns
    the outcome and the value of [out]. *)
Definition decrypt (self : CipherImpl) (in_ : list byte)
           (out : list byte)
  : outcome unit * list byte :=
  let len := size in_ in
  if len <=? NONCE_SIZE + crypto_aead_chacha20poly1305_IETF_ABYTES
  then (Throw invalid_argument, out)
  else
    let p_len := plaintext_length len in
    let data := repeat x00 (Z.to_nat p_len) in
    match decrypt_raw self in_ data with
    | (Normal _, data') => (Normal tt, firstn (Z.to_nat p_len) data')
    | (Throw e, _) => (Throw e, out)
    | (Undefined, _) => (Undefined, out)
    end.

End Operations.

End Cipher.

(** ** Prf (the template after the SetHash code in [src/set_hash.cpp]) *)

Module Prf.

(** What the template takes from [hash.hpp] and [hmac.hpp]: the digest size
    [Hash::kDigestSize] (which is also [PrfBase::kDigestSize]) and the
    keyed hash [HMac<Hash, kKeySize>], whose digest of a message under a
    key is [hmac_digest key msg]. *)
Class KeyedHash : Type := {
  kDigestSize : Z;
  hmac_digest : forall (key msg : list byte), list byte
}.

(** [Prf<NBYTES>]: the key held by [PrfBase base_]. *)
Record Prf : Type := { base_ : list byte }.

Section Operations.
Context {H : KeyedHash} {M : Buffer.Memory}.

(** Modelled from the spec: [HMac::hmac(in, length, out, out_len)] of
    [hmac.hpp], which is not among the sources.  One call of the keyed
    hash, truncated to [out_len] bytes; the result is what the call
    writes to [out]. *)
Definition hmac (self : Prf) (in_ : list byte) (out_len : Z)
  : list byte :=
  firstn (Z.to_nat out_len) (hmac_digest (base_ self) in_).

(** The [for] loop of [Prf<NBYTES>::prf]: [pos] is a [uint16_t], [i] a
    [uint8_t], [tmp] is the input followed by the counter byte.  [None]
    when the loop is still running after [fuel] iterations. *)
Fixpoint prf_loop (fuel : nat) (self : Prf) (NBYTES : Z)
         (in_ : list byte) (pos i : Z) (result : list byte)
  : option (outcome (list byte)) :=
  match fuel with
  | O => None
  | S fuel' =>
      if pos <? NBYTES then
        let tmp := in_ ++ [byte_of_Z i] in
        let out_len :=
          if kDigestSize <=? NBYTES - pos then kDigestSize
          else NBYTES - pos in
        match Buffer.write result (Z.to_nat pos)
                (hmac self tmp out_len) with
        | Some result' =>
            prf_loop fuel' self NBYTES in_
              (to_uint16 (pos + kDigestSize)) (to_uint8 (i + 1)) result'
        | None => Some Undefined
        end
      else Some (Normal result)
  end.

(** The expansion as the specification words it: the digests of the
    input followed by the counter byte, for counters 0, 1, 2, ...,
    concatenated and cut to [NBYTES] bytes. *)
Definition block (self : Prf) (in_ : list byte) (counter : nat)
  : list byte :=
  hmac_digest (base_ self) (in_ ++ [byte_of_Z (Z.of_nat counter)]).

Definition blocks_needed (NBYTES : Z) : nat :=
  Z.to_nat ((NBYTES + kDigestSize - 1) / kDigestSize).

Definition counter_mode_expansion (self : Prf) (NBYTES : Z)
           (in_ : list byte) : list byte :=
  firstn (Z.to_nat NBYTES)
    (flat_map (block self in_) (seq 0 (blocks_needed NBYTES))).

(** [Prf<NBYTES>::prf(in, length)]; [in_ = None] is the null pointer.
    [NBYTES] is a non-zero [uint16_t]. *)
Definition prf (fuel : nat) (self : Prf) (NBYTES : Z)
           (in_ : option (list byte))
  : option (outcome (list byte)) :=
  match in_ with
  | None => Some (Throw invalid_argument)
  | Some in_ =>
      let result := Buffer.new_array NBYTES in
      if kDigestSize <? NBYTES then
        prf_loop fuel self NBYTES in_ 0 0 result
      else if NBYTES <=? kDigestSize then
        match Buffer.write result 0 (hmac self in_ NBYTES) with
        | Some result' => Some (Normal result')
        | None => Some Undefined
        end
      else Some (Normal result)
  end.

End Operations.

End Prf.

(** ** The earlier revision of the Prf template ([unnamed/part_000]) *)

Module PrfLegacy.

Inductive legacy_outcome : Type :=
| Returned (result : list byte)
| AssertionFailed.

Section Operations.
Context {H : Prf.KeyedHash} {M : Buffer.Memory}.

(** [Prf<NBYTES>::prf(in, length)] with [NBYTES] a [uint8_t], built
    with assertions enabled: one digest, of which [NBYTES] bytes are
    copied. *)
Definition prf (self : Prf.Prf) (NBYTES : Z) (in_ : list byte)
  : legacy_outcome :=
  let result := Buffer.new_array NBYTES in
  if NBYTES <=? Prf.kDigestSize then
    match Buffer.write result 0
            (firstn (Z.to_nat NBYTES)
               (Prf.hmac_digest (Prf.base_ self) in_)) with
    | Some result' => Returned result'
    | None => Returned result
    end
  else AssertionFailed.

End Operations.

End PrfLegacy.

(** ** SetHash ([src/set_hash.cpp]) *)

Module SetHash.

(** Modelled from the spec: the group the multiset-hash engine [MSH]
    computes in (the engine's code is not among the sources): its elements
    (the [MSH::State]), the identity, the group operation, the inverse,
    the map from byte strings to group elements, the equality test of the
    curve, and the engine's byte encoding of an element. *)
Class Engine : Type := {
  State : Type;
  identity : State;
  combine : State -> State -> State;
  inverse : State -> State;
  hash_to_group : list byte -> State;
  equal : State -> State -> bool;
  encode : State -> list byte;
  decode : list byte -> option State
}.

(** Modelled from the spec: the hexadecimal encoding the engine writes
    its states in.  The digit of a value below 16, in lower case. *)
Definition hex_digit (n : N) : byte :=
  match n with
  | 0%N => x30 | 1%N => x31 | 2%N => x32 | 3%N => x33
  | 4%N => x34 | 5%N => x35 | 6%N => x36 | 7%N => x37
  | 8%N => x38 | 9%N => x39 | 10%N => x61 | 11%N => x62
  | 12%N => x63 | 13%N => x64 | 14%N => x65 | _ => x66
  end.

(** Modelled from the spec: the value of a hexadecimal digit, of either
    case. *)
Definition hex_value (c : byte) : option N :=
  match c with
  | x30 => Some 0%N | x31 => Some 1%N | x32 => Some 2%N | x33 => Some 3%N
  | x34 => Some 4%N | x35 => Some 5%N | x36 => Some 6%N | x37 => Some 7%N
  | x38 => Some 8%N | x39 => Some 9%N
  | x61 | x41 => Some 10%N | x62 | x42 => Some 11%N
  | x63 | x43 => Some 12%N | x64 | x44 => Some 13%N
  | x65 | x45 => Some 14%N | x66 | x46 => Some 15%N
  | _ => None
  end.

(** Modelled from the spec: two hexadecimal digits per byte, the high
    one first. *)
Fixpoint hex_of_bytes (l : list byte) : list byte :=
  match l with
  | [] => []
  | b :: l' =>
      hex_digit (Byte.to_N b / 16) :: hex_digit (Byte.to_N b mod 16)
        :: hex_of_bytes l'
  end.

(** Modelled from the spec: the decoding of a hexadecimal string; [None]
    for an odd number of characters or a character that is no digit. *)
Fixpoint bytes_of_hex (s : list byte) : option (list byte) :=
  match s with
  | [] => Some []
  | hi :: lo :: s' =>
      match hex_value hi, hex_value lo, bytes_of_hex s' with
      | Some h, Some l, Some rest =>
          match Byte.of_N (h * 16 + l) with
          | Some b => Some (b :: rest)
          | None => None
          end
      | _, _, _ => None
      end
  | [_] => None
  end.

Section Operations.
Context {E : Engine}.

(** Modelled from the spec: [initial_state] of the multiset-hash engine
    ([ecmh/multiset_hash/ECMH.hpp], which is not among the sources), the
    identity of the group, the hash of the empty multiset. *)
Definition initial_state : State := identity.

(** Modelled from the spec: [add] of the engine, state <- state (+) H(x). *)
Definition add (state : State) (x : list byte) : State :=
  combine state (hash_to_group x).

(** Modelled from the spec: [remove] of the engine, the inverse operation,
    state <- state (-) H(x). *)
Definition remove (state : State) (x : list byte) : State :=
  combine state (inverse (hash_to_group x)).

(** Modelled from the spec: [add_hash] of the engine, which combines two
    whole states. *)
Definition add_hash (state x : State) : State := combine state x.

(** Modelled from the spec: [remove_hash] of the engine, which cancels a
    whole state. *)
Definition remove_hash (state x : State) : State :=
  combine state (inverse x).

(** Modelled from the spec: [invert] of the engine, the algebraic inverse
    of the state. *)
Definition invert (state : State) : State := inverse state.

(** Modelled from the spec: [to_hex] of the engine, the hexadecimal string
    of the encoding of the group element. *)
Definition to_hex (state : State) : list byte :=
  hex_of_bytes (encode state).

(** Modelled from the spec: [from_hex] of the engine, which decodes the
    hexadecimal string of an encoding; [None] when the string is not
    one. *)
Definition from_hex (s : list byte) : option State :=
  match bytes_of_hex s with
  | Some l => decode l
  | None => None
  end.

(** [SetHash::SetHashImpl]. *)
Record SetHashImpl : Type := { state_ : State }.

(** [SetHashImpl()]. *)
Definition SetHashImpl_new : SetHashImpl :=
  {| state_ := initial_state |}.

(** [SetHashImpl(const MSH::State&)]. *)
Definition SetHashImpl_of_state (s : State) : SetHashImpl :=
  {| state_ := s |}.

(** [SetHashImpl(const std::string&)]; [None] when the engine rejects
    the string. *)
Definition SetHashImpl_of_hex (hex : list byte) : option SetHashImpl :=
  match from_hex hex with
  | Some s => Some {| state_ := s |}
  | None => None
  end.

Definition add_element (self : SetHashImpl) (in_ : list byte)
  : SetHashImpl :=
  {| state_ := add (state_ self) in_ |}.

Definition add_set (self h : SetHashImpl) : SetHashImpl :=
  {| state_ := add_hash (state_ self) (state_ h) |}.

Definition remove_element (self : SetHashImpl) (in_ : list byte)
  : SetHashImpl :=
  {| state_ := remove (state_ self) in_ |}.

Definition remove_set (self h : SetHashImpl) : SetHashImpl :=
  {| state_ := remove_hash (state_ self) (state_ h) |}.

Definition invert_set (self : SetHashImpl) : State :=
  invert (state_ self).

Definition hex (self : SetHashImpl) : list byte :=
  to_hex (state_ self).

(** [SetHashImpl::operator==]. *)
Definition eqb (self h : SetHashImpl) : bool :=
  equal (state_ self) (state_ h).

End Operations.

End SetHash.

(** ** The SetHash handle ([src/set_hash.cpp], the public class)

    A [SetHash] owns a pointer to its [SetHashImpl]; its constructors,
    destructor and assignment allocate and delete that object.  The free
    store is explicit here: two handles may hold the same address. *)

Module SetHashHandle.

(** [new]: the address the allocator hands out for the next object. *)
Class Allocator (heap : Type) : Type := { alloc : heap -> nat }.

Section Handles.
Context {E : SetHash.Engine}.

(** The live [SetHashImpl] objects, by address; the first binding of an
    address is the current one. *)
Definition heap : Type := list (nat * SetHash.SetHashImpl).

Context {A : Allocator heap}.

Fixpoint lookup (m : heap) (p : nat) : option SetHash.SetHashImpl :=
  match m with
  | [] => None
  | (q, v) :: m' => if Nat.eqb q p then Some v else lookup m' p
  end.

Definition store (m : heap) (p : nat) (v : SetHash.SetHashImpl) : heap :=
  (p, v) :: m.

Fixpoint release (m : heap) (p : nat) : heap :=
  match m with
  | [] => []
  | (q, v) :: m' =>
      if Nat.eqb q p then release m' p else (q, v) :: release m' p
  end.

(** The outcome of an operation: it returns with a new free store, the
    engine throws while decoding (the free store is as before), or the
    behaviour is undefined (an implementation object is used or deleted
    after it has been deleted). *)
Inductive result (T : Type) : Type :=
| Done (a : T) (m : heap)
| Raised (m : heap)
| Fault.
Arguments Done {T} a m.
Arguments Raised {T} m.
Arguments Fault {T}.

(** [class SetHash]: the pointer [set_hash_imp_]. *)
Record SetHashObj : Type := { set_hash_imp_ : nat }.

(** [SetHash::SetHash()]. *)
Definition SetHash_new (m : heap) : result SetHashObj :=
  let p := alloc m in
  Done {| set_hash_imp_ := p |} (store m p SetHash.SetHashImpl_new).

(** [SetHash::SetHash(const std::string&)]. *)
Definition SetHash_of_hex (hex : list byte) (m : heap) : result SetHashObj :=
  match SetHash.SetHashImpl_of_hex hex with
  | Some v =>
      let p := alloc m in
      Done {| set_hash_imp_ := p |} (store m p v)
  | None => Raised m
  end.

(** [SetHash::SetHash(const SetHash&)]: a new implementation built from
    the hexadecimal string of the other one. *)
Definition SetHash_copy (o : SetHashObj) (m : heap) : result SetHashObj :=
  match lookup m (set_hash_imp_ o) with
  | Some v => SetHash_of_hex (SetHash.hex v) m
  | None => Fault
  end.

(** [SetHash::SetHash(const SetHash&&)]: [std::move] of the pointer of a
    constant object copies the pointer. *)
Definition SetHash_move (o : SetHashObj) (m : heap) : result SetHashObj :=
  Done {| set_hash_imp_ := set_hash_imp_ o |} m.

(** [SetHash::~SetHash()]: [delete set_hash_imp_]. *)
Definition destroy (self : SetHashObj) (m : heap) : result unit :=
  match lookup m (set_hash_imp_ self) with
  | Some _ => Done tt (release m (set_hash_imp_ self))
  | None => Fault
  end.

(** A member function of the implementation called through the
    pointer. *)
Definition update (self : SetHashObj)
           (f : SetHash.SetHashImpl -> SetHash.SetHashImpl) (m : heap)
  : result unit :=
  match lookup m (set_hash_imp_ self) with
  | Some v => Done tt (store m (set_hash_imp_ self) (f v))
  | None => Fault
  end.

(** [SetHash::add_element] and [SetHash::remove_element]. *)
Definition add_element (self : SetHashObj) (in_ : list byte) (m : heap)
  : result unit :=
  update self (fun v => SetHash.add_element v in_) m.

Definition remove_element (self : SetHashObj) (in_ : list byte) (m : heap)
  : result unit :=
  update self (fun v => SetHash.remove_element v in_) m.

(** [SetHash::add_set] and [SetHash::remove_set]. *)
Definition add_set (self h : SetHashObj) (m : heap) : result unit :=
  match lookup m (set_hash_imp_ h) with
  | Some w => update self (fun v => SetHash.add_set v w) m
  | None => Fault
  end.

Definition remove_set (self h : SetHashObj) (m : heap) : result unit :=
  match lookup m (set_hash_imp_ h) with
  | Some w => update self (fun v => SetHash.remove_set v w) m
  | None => Fault
  end.

(** [SetHash::hex]. *)
Definition hex (self : SetHashObj) (m : heap) : result (list byte) :=
  match lookup m (set_hash_imp_ self) with
  | Some v => Done (SetHash.hex v) m
  | None => Fault
  end.

(** [SetHash::operator==] and [SetHash::operator!=]. *)
Definition eq (self h : SetHashObj) (m : heap) : result bool :=
  match lookup m (set_hash_imp_ self), lookup m (set_hash_imp_ h) with
  | Some v, Some w => Done (SetHash.eqb v w) m
  | _, _ => Fault
  end.

Definition neq (self h : SetHashObj) (m : heap) : result bool :=
  match eq self h m with
  | Done b m' => Done (negb b) m'
  | Raised m' => Raised m'
  | Fault => Fault
  end.

(** [SetHash::operator=]: the own implementation is deleted, then a copy
    of the other one is allocated.  Returns the handle with its new
    pointer. *)
Definition assign (self h : SetHashObj) (m : heap) : result SetHashObj :=
  match lookup m (set_hash_imp_ self) with
  | None => Fault
  | Some _ =>
      let m1 := release m (set_hash_imp_ self) in
      match lookup m1 (set_hash_imp_ h) with
      | None => Fault
      | Some w =>
          let p := alloc m1 in
          Done {| set_hash_imp_ := p |} (store m1 p w)
      end
  end.

(** [SetHash::invert_set]: a local [SetHash h] receives the inverted
    state and is returned by value.  When the compiler elides the copy
    ([elided = true]) the local object is the returned one; otherwise the
    returned object is built from the local one, an rvalue, by
    [SetHash(const SetHash&&)], and the local one is destroyed. *)
Definition invert_set (elided : bool) (self : SetHashObj) (m : heap)
  : result SetHashObj :=
  match SetHash_new m with
  | Done h m1 =>
      match lookup m1 (set_hash_imp_ self),
            lookup m1 (set_hash_imp_ h) with
      | Some v, Some _ =>
          let m2 :=
            store m1 (set_hash_imp_ h)
              (SetHash.SetHashImpl_of_state (SetHash.invert_set v)) in
          if elided then Done h m2
          else
            match SetHash_move h m2 with
            | Done ret m3 =>
                match destroy h m3 with
                | Done _ m4 => Done ret m4
                | Raised m4 => Raised m4
                | Fault => Fault
                end
            | Raised m3 => Raised m3
            | Fault => Fault
            end
      | _, _ => Fault
      end
  | Raised m1 => Raised m1
  | Fault => Fault
  end.

(** The hash of a sequence of elements added one after the other. *)
Definition add_elements (h : SetHash.SetHashImpl) (l : list (list byte))
  : SetHash.SetHashImpl :=
  fold_left SetHash.add_element l h.

End Handles.

Arguments Done {E T} a m.
Arguments Raised {E T} m.
Arguments Fault {E T}.

End SetHashHandle.

(** ** A small instance of the interfaces

    Stand-ins for the external primitives, small enough to run the
    embedding on concrete inputs. *)

Module Toy.

Fixpoint bytes_eqb (l1 l2 : list byte) : bool :=
  match l1, l2 with
  | [], [] => true
  | b1 :: l1', b2 :: l2' => Byte.eqb b1 b2 && bytes_eqb l1' l2'
  | _, _ => false
  end.

(** The tag of the stand-in AEAD: 16 copies of the first key byte. *)
Definition tag (k : list byte) : list byte := repeat (hd x00 k) 16.

Definition seal (m ad npub k : list byte) : list byte := m ++ tag k.

Definition open_ (c ad npub k : list byte) : option (list byte) :=
  let n := (length c - 16)%nat in
  if (16 <=? length c)%nat && bytes_eqb (skipn n c) (tag k)
  then Some (firstn n c)
  else None.

#[global] Instance primitives : Cipher.Primitives := {|
  Cipher.entropy := fun n => byte_of_Z (Z.of_nat n);
  Cipher.crypto_generichash_blake2b_salt_personal :=
    fun outlen in_ key salt personal =>
      firstn (Z.to_nat outlen) (key ++ salt ++ personal);
  Cipher.crypto_aead_chacha20poly1305_ietf_encrypt := seal;
  Cipher.crypto_aead_chacha20poly1305_ietf_decrypt := open_
|}.

#[global] Instance memory : Buffer.Memory := {|
  Buffer.uninitialized := fun _ => xcd
|}.

(** A 64-byte digest filled with the last byte of the message. *)
#[global] Instance keyed_hash : Prf.KeyedHash := {|
  Prf.kDigestSize := 64;
  Prf.hmac_digest := fun key msg => repeat (last msg x00) 64
|}.

(** The two-element group. *)
#[global] Instance engine : SetHash.Engine := {|
  SetHash.State := bool;
  SetHash.identity := false;
  SetHash.combine := xorb;
  SetHash.inverse := fun b => b;
  SetHash.hash_to_group := fun x => Nat.odd (length x);
  SetHash.equal := Bool.eqb;
  SetHash.encode := fun b => [if b then x01 else x00];
  SetHash.decode := fun l =>
    match l with
    | [x00] => Some false
    | [x01] => Some true
    | _ => None
    end
|}.

Definition cipher : Cipher.CipherImpl :=
  {| Cipher.key_ := repeat x07 32 |}.

Definition prf_key : Prf.Prf := {| Prf.base_ := repeat x07 32 |}.

(** A 13-byte plaintext and its ciphertext under [cipher]. *)
Definition scenario_plain : list byte :=
  [x48; x65; x6c; x6c; x6f; x2c; x20; x77; x6f; x72; x6c; x64; x21].

Definition scenario_cipher : list byte :=
  snd (fst (Cipher.encrypt cipher scenario_plain [] 0)).

(** The group of three elements, a group in which an element and its
    inverse differ. *)
Inductive z3 : Type := Z0 | Z1 | Z2.

Definition z3_add (a b : z3) : z3 :=
  match a, b with
  | Z0, x | x, Z0 => x
  | Z1, Z1 => Z2
  | Z1, Z2 | Z2, Z1 => Z0
  | Z2, Z2 => Z1
  end.

Definition z3_neg (a : z3) : z3 :=
  match a with Z0 => Z0 | Z1 => Z2 | Z2 => Z1 end.

Definition z3_eqb (a b : z3) : bool :=
  match a, b with
  | Z0, Z0 | Z1, Z1 | Z2, Z2 => true
  | _, _ => false
  end.

Definition engine3 : SetHash.Engine := {|
  SetHash.State := z3;
  SetHash.identity := Z0;
  SetHash.combine := z3_add;
  SetHash.inverse := z3_neg;
  SetHash.hash_to_group := fun x =>
    match (length x mod 3)%nat with
    | O => Z0
    | S O => Z1
    | _ => Z2
    end;
  SetHash.equal := z3_eqb;
  SetHash.encode := fun a =>
    [match a with Z0 => x00 | Z1 => x01 | Z2 => x02 end];
  SetHash.decode := fun l =>
    match l with
    | [x00] => Some Z0
    | [x01] => Some Z1
    | [x02] => Some Z2
    | _ => None
    end
|}.

(** An allocator: one more than the largest address in use. *)
Definition bump : SetHashHandle.Allocator (SetHashHandle.heap (E := engine3))
  := {| SetHashHandle.alloc :=
          fun m => S (fold_right Nat.max 0%nat (map fst m)) |}.

(** Two hashes over the group of three elements, and a free store that
    holds them at the addresses 1 and 2. *)
Definition h1 : SetHash.SetHashImpl (E := engine3) :=
  SetHash.SetHashImpl_of_state (E := engine3) Z1.
Definition h2 : SetHash.SetHashImpl (E := engine3) :=
  SetHash.SetHashImpl_of_state (E := engine3) Z2.
Definition store2 : SetHashHandle.heap (E := engine3) :=
  [(2%nat, h2); (1%nat, h1)].
Definition at1 : SetHashHandle.SetHashObj :=
  {| SetHashHandle.set_hash_imp_ := 1 |}.
Definition at2 : SetHashHandle.SetHashObj :=
  {| SetHashHandle.set_hash_imp_ := 2 |}.

End Toy.

(** * Properties *)

(** ** Buffers and sizes *)

Lemma size_nonneg (l : list byte) : 0 <= size l.
Proof. unfold size. lia. Qed.

Lemma size_app (l1 l2 : list byte) : size (l1 ++ l2) = size l1 + size l2.
Proof. unfold size. rewrite length_app. lia. Qed.

Lemma to_size_t_small (z : Z) : 0 <= z <= SIZE_MAX -> to_size_t z = z.
Proof. unfold to_size_t, SIZE_MAX. intros H. apply Z.mod_small. lia. Qed.

Lemma write_length buf off data buf' :
  Buffer.write buf off data = Some buf' -> length buf' = length buf.
Proof.
  unfold Buffer.write.
  destruct (Nat.leb_spec (off + length data) (length buf)); [|discriminate].
  intros [= <-]. rewrite !length_app, length_firstn, length_skipn. lia.
Qed.

Lemma write_prefix buf data :
  (length data <= length buf)%nat ->
  Buffer.write buf 0 data = Some (data ++ skipn (length data) buf).
Proof.
  intros H. unfold Buffer.write. simpl.
  destruct (Nat.leb_spec (length data) (length buf)); [reflexivity|lia].
Qed.

Lemma write_whole buf data :
  length data = length buf -> Buffer.write buf 0 data = Some data.
Proof.
  intros H. rewrite write_prefix by lia.
  rewrite H, skipn_all. now rewrite app_nil_r.
Qed.

Lemma write_suffix pre rest data :
  length data = length rest ->
  Buffer.write (pre ++ rest) (length pre) data = Some (pre ++ data).
Proof.
  intros H. unfold Buffer.write. rewrite length_app, H, Nat.leb_refl.
  rewrite firstn_app, Nat.sub_diag, firstn_all. simpl.
  rewrite app_nil_r. f_equal. f_equal.
  rewrite <- (length_app pre rest), skipn_all. now rewrite app_nil_r.
Qed.

Lemma new_array_length {M : Buffer.Memory} (n : Z) :
  length (Buffer.new_array n) = Z.to_nat n.
Proof. unfold Buffer.new_array. now rewrite length_map, length_seq. Qed.

(** ** Cipher: length contracts *)

Import Cipher.

Lemma ciphertext_length_exact (L : Z) :
  0 <= L <= SIZE_MAX - NONCE_SIZE - TAG_SIZE ->
  ciphertext_length L = L + NONCE_SIZE + TAG_SIZE.
Proof.
  unfold ciphertext_length, NONCE_SIZE, TAG_SIZE, SIZE_MAX,
    crypto_generichash_blake2b_SALTBYTES,
    crypto_aead_chacha20poly1305_IETF_ABYTES.
  intros H. rewrite !to_size_t_small; unfold SIZE_MAX; try lia.
  rewrite to_size_t_small; unfold SIZE_MAX; lia.
Qed.

Lemma plaintext_length_exact (c_len : Z) :
  NONCE_SIZE + TAG_SIZE < c_len <= SIZE_MAX ->
  plaintext_length c_len = c_len - NONCE_SIZE - TAG_SIZE.
Proof.
  unfold plaintext_length, NONCE_SIZE, TAG_SIZE, SIZE_MAX,
    crypto_generichash_blake2b_SALTBYTES,
    crypto_aead_chacha20poly1305_IETF_ABYTES.
  intros H. destruct (Z.ltb_spec (16 + 16) c_len); [|lia].
  rewrite !to_size_t_small; unfold SIZE_MAX; try lia.
  rewrite to_size_t_small; unfold SIZE_MAX; lia.
Qed.

(** C1 (as stated, refuted).  [SIZE_MAX] is a plaintext length of at least
    1, yet [ciphertext_length] wraps around to 31 there: it is not
    [SIZE_MAX + NONCE_SIZE + TAG_SIZE], and [plaintext_length] does not
    give [SIZE_MAX] back. *)
Lemma ciphertext_length_wraps_at_SIZE_MAX :
  1 <= SIZE_MAX /\ is_size_t SIZE_MAX /\
  ciphertext_length SIZE_MAX = 31 /\
  ciphertext_length SIZE_MAX <> SIZE_MAX + NONCE_SIZE + TAG_SIZE /\
  plaintext_length (ciphertext_length SIZE_MAX) <> SIZE_MAX.
Proof. vm_compute. repeat split; discriminate. Qed.

(** C1 (amended).  For every plaintext length [L >= 1] for which
    [L + NONCE_SIZE + TAG_SIZE] is representable in [size_t],
    [ciphertext_length L] is [L + NONCE_SIZE + TAG_SIZE] and
    [plaintext_length] maps it back to [L]; and [plaintext_length c_len]
    is 0 for every [c_len <= NONCE_SIZE + TAG_SIZE]. *)
Theorem length_contracts (L c_len : Z) :
  1 <= L <= SIZE_MAX - NONCE_SIZE - TAG_SIZE ->
  c_len <= NONCE_SIZE + TAG_SIZE ->
  ciphertext_length L = L + NONCE_SIZE + TAG_SIZE /\
  plaintext_length (ciphertext_length L) = L /\
  plaintext_length c_len = 0.
Proof.
  intros HL Hc.
  assert (E : ciphertext_length L = L + NONCE_SIZE + TAG_SIZE)
    by (apply ciphertext_length_exact; lia).
  repeat split.
  - exact E.
  - rewrite E, plaintext_length_exact; [lia|].
    unfold NONCE_SIZE, TAG_SIZE, crypto_generichash_blake2b_SALTBYTES,
      crypto_aead_chacha20poly1305_IETF_ABYTES in *. lia.
  - unfold plaintext_length. fold TAG_SIZE.
    destruct (Z.ltb_spec (NONCE_SIZE + TAG_SIZE) c_len); [lia|reflexivity].
Qed.

(** The scenario of the specification: a 13-byte plaintext has a 45-byte
    ciphertext. *)
Lemma length_contracts_witness :
  ciphertext_length 13 = 13 + NONCE_SIZE + TAG_SIZE /\
  plaintext_length (ciphertext_length 13) = 13 /\
  plaintext_length 32 = 0.
Proof.
  apply (length_contracts 13 32); [split|]; vm_compute; discriminate.
Defined.

(** ** Cipher: encryption and decryption *)

Lemma firstn_prefix_le {A} (n : nat) (l1 l2 : list A) :
  (n <= length l1)%nat -> firstn n (l1 ++ l2) = firstn n l1.
Proof.
  intros H. rewrite firstn_app.
  replace (n - length l1)%nat with 0%nat by lia. simpl. apply app_nil_r.
Qed.

Lemma firstn_prefix {A} (n : nat) (l1 l2 : list A) :
  n = length l1 -> firstn n (l1 ++ l2) = l1.
Proof. intros ->. rewrite firstn_prefix_le by lia. apply firstn_all. Qed.

Lemma skipn_prefix {A} (n : nat) (l1 l2 : list A) :
  n = length l1 -> skipn n (l1 ++ l2) = l2.
Proof.
  intros ->. rewrite skipn_app, skipn_all, Nat.sub_diag. reflexivity.
Qed.

Section CipherProperties.
Context {prim : Primitives} {M : Buffer.Memory}.
Variable self : CipherImpl.

(** The contract of libsodium's AEAD: the output of encryption is the
    message length plus the tag; a successful decryption yields the
    input length minus the tag; decryption under the same nonce and key
    inverts encryption. *)
Hypothesis aead_encrypt_length : forall m ad npub k,
  size (crypto_aead_chacha20poly1305_ietf_encrypt m ad npub k)
  = size m + crypto_aead_chacha20poly1305_IETF_ABYTES.
Hypothesis aead_decrypt_length : forall c ad npub k m,
  crypto_aead_chacha20poly1305_ietf_decrypt c ad npub k = Some m ->
  size m = size c - crypto_aead_chacha20poly1305_IETF_ABYTES.
Hypothesis aead_decrypt_encrypt : forall m ad npub k,
  crypto_aead_chacha20poly1305_ietf_decrypt
    (crypto_aead_chacha20poly1305_ietf_encrypt m ad npub k) ad npub k
  = Some m.

Lemma drawn_nonce_length rng : length (drawn_nonce rng) = 16%nat.
Proof.
  unfold drawn_nonce, random_bytes. cbn [fst].
  now rewrite length_map, length_seq.
Qed.

Lemma sealed_length nonce in_ :
  length (sealed self nonce in_) = (length in_ + 16)%nat.
Proof.
  pose proof (aead_encrypt_length in_ [] (npub_at nonce)
                (derive_chacha_key self nonce)) as H.
  unfold size, crypto_aead_chacha20poly1305_IETF_ABYTES in H.
  unfold sealed. lia.
Qed.

Lemma derive_chacha_key_prefix nonce rest :
  length nonce = 16%nat ->
  derive_chacha_key self (nonce ++ rest) = derive_chacha_key self nonce.
Proof.
  intros Hn. unfold derive_chacha_key. f_equal.
  change (Z.to_nat crypto_generichash_blake2b_SALTBYTES) with 16%nat.
  rewrite firstn_prefix by congruence. rewrite <- Hn. now rewrite firstn_all.
Qed.

Lemma npub_at_prefix nonce rest :
  length nonce = 16%nat -> npub_at (nonce ++ rest) = npub_at nonce.
Proof.
  intros Hn. unfold npub_at.
  change (Z.to_nat crypto_aead_chacha20poly1305_IETF_NPUBBYTES) with 12%nat.
  apply firstn_prefix_le. lia.
Qed.

(** What [encrypt] does on a non-empty string: the drawn nonce followed
    by the AEAD output. *)
Lemma encrypt_nonempty (in_ out : list byte) (rng : nat) :
  in_ <> [] -> valid_string in_ ->
  encrypt self in_ out rng
  = (Normal tt,
     drawn_nonce rng ++ sealed self (drawn_nonce rng) in_,
     snd (random_bytes NONCE_SIZE rng)).
Proof.
  intros Hne Hv. destruct in_ as [|b l]; [congruence|].
  unfold encrypt. set (inb := b :: l) in *.
  assert (Hc : ciphertext_length (size inb) = size inb + 32).
  { rewrite ciphertext_length_exact;
      [unfold NONCE_SIZE, TAG_SIZE, crypto_generichash_blake2b_SALTBYTES,
         crypto_aead_chacha20poly1305_IETF_ABYTES; lia|].
    pose proof (size_nonneg inb). unfold valid_string, PTRDIFF_MAX in Hv.
    unfold SIZE_MAX, NONCE_SIZE, TAG_SIZE,
      crypto_generichash_blake2b_SALTBYTES,
      crypto_aead_chacha20poly1305_IETF_ABYTES. lia. }
  rewrite Hc. unfold encrypt_raw.
  pose proof (drawn_nonce_length rng) as Hn.
  unfold drawn_nonce in *.
  destruct (random_bytes NONCE_SIZE rng) as [nonce rng'] eqn:Er.
  cbn [fst snd] in *.
  assert (Ha : length (Buffer.new_array (size inb + 32))
               = (16 + (length inb + 16))%nat).
  { rewrite new_array_length. unfold size. lia. }
  rewrite write_prefix by lia.
  rewrite derive_chacha_key_prefix, npub_at_prefix by exact Hn.
  fold (sealed self nonce inb).
  replace (Z.to_nat NONCE_SIZE) with (length nonce)
    by (rewrite Hn; reflexivity).
  rewrite write_suffix.
  - rewrite firstn_all2; [reflexivity|].
    rewrite length_app, sealed_length. unfold size. lia.
  - rewrite sealed_length, length_skipn. lia.
Qed.

Lemma ciphertext_length_0 : ciphertext_length 0 = 32.
Proof. reflexivity. Qed.

(** What [decrypt] does on a string longer than nonce and tag: the
    outcome is decided by the AEAD alone. *)
Lemma decrypt_long (in_ out : list byte) :
  NONCE_SIZE + TAG_SIZE < size in_ -> size in_ <= SIZE_MAX ->
  decrypt self in_ out
  = match crypto_aead_chacha20poly1305_ietf_decrypt
            (skipn (Z.to_nat NONCE_SIZE) in_) [] (npub_at in_)
            (derive_chacha_key self in_) with
    | Some m => (Normal tt, m)
    | None => (Throw runtime_error, out)
    end.
Proof.
  intros Hlong Hmax. unfold decrypt. fold TAG_SIZE.
  destruct (Z.leb_spec (size in_) (NONCE_SIZE + TAG_SIZE)); [lia|].
  rewrite plaintext_length_exact by lia.
  unfold decrypt_raw. rewrite ciphertext_length_0.
  unfold NONCE_SIZE, TAG_SIZE, crypto_generichash_blake2b_SALTBYTES,
    crypto_aead_chacha20poly1305_IETF_ABYTES in *.
  destruct (Z.ltb_spec (size in_) 32); [lia|].
  destruct (crypto_aead_chacha20poly1305_ietf_decrypt _ _ _ _)
    as [m|] eqn:Em.
  - apply aead_decrypt_length in Em.
    unfold crypto_aead_chacha20poly1305_IETF_ABYTES, size in Em.
    rewrite length_skipn in Em.
    assert (Hm : length m = Z.to_nat (size in_ - 16 - 16))
      by (unfold size in *; lia).
    rewrite write_whole by (rewrite repeat_length; exact Hm).
    rewrite <- Hm. now rewrite firstn_all.
  - rewrite (to_size_t_small (size in_ - 16)), to_size_t_small
      by (unfold SIZE_MAX in *; lia).
    rewrite write_whole by (now rewrite !repeat_length).
    reflexivity.
Qed.

(** C4.  [encrypt] throws [invalid_argument] exactly when the plaintext
    is empty; on every non-empty plaintext it returns normally and the
    ciphertext has [in.size() + NONCE_SIZE + TAG_SIZE] bytes. *)
Theorem encrypt_invalid_iff_empty (in_ out : list byte) (rng : nat) :
  valid_string in_ ->
  (fst (fst (encrypt self in_ out rng)) = Throw invalid_argument
   <-> in_ = []) /\
  (in_ <> [] ->
   exists ct rng',
     encrypt self in_ out rng = (Normal tt, ct, rng') /\
     size ct = size in_ + NONCE_SIZE + TAG_SIZE).
Proof.
  intros Hv. split.
  - split.
    + intros H. destruct in_ as [|b l]; [reflexivity|].
      rewrite encrypt_nonempty in H by (congruence || assumption).
      discriminate.
    + intros ->. reflexivity.
  - intros Hne. rewrite encrypt_nonempty by assumption.
    eexists. eexists. split; [reflexivity|].
    unfold size. rewrite length_app, drawn_nonce_length, sealed_length.
    unfold NONCE_SIZE, TAG_SIZE, crypto_generichash_blake2b_SALTBYTES,
      crypto_aead_chacha20poly1305_IETF_ABYTES. lia.
Qed.

(** C6.  For a non-empty plaintext of [L] bytes the ciphertext is the
    nonce drawn from the random source ([NONCE_SIZE] bytes, the first
    bytes of the ciphertext) followed by the AEAD output under the
    sub-key of that nonce ([L + TAG_SIZE] bytes):
    [L + NONCE_SIZE + TAG_SIZE] bytes in all. *)
Theorem encrypt_layout (in_ out : list byte) (rng : nat) :
  in_ <> [] -> valid_string in_ ->
  exists ct rng',
    encrypt self in_ out rng = (Normal tt, ct, rng') /\
    firstn (Z.to_nat NONCE_SIZE) ct = drawn_nonce rng /\
    size (drawn_nonce rng) = NONCE_SIZE /\
    skipn (Z.to_nat NONCE_SIZE) ct = sealed self (drawn_nonce rng) in_ /\
    size (sealed self (drawn_nonce rng) in_) = size in_ + TAG_SIZE /\
    size ct = size in_ + NONCE_SIZE + TAG_SIZE.
Proof.
  intros Hne Hv. rewrite encrypt_nonempty by assumption.
  pose proof (drawn_nonce_length rng) as Hn.
  pose proof (sealed_length (drawn_nonce rng) in_) as Hs.
  eexists. eexists. split; [reflexivity|].
  change (Z.to_nat NONCE_SIZE) with 16%nat.
  repeat apply conj.
  - now apply firstn_prefix.
  - unfold size. rewrite Hn. reflexivity.
  - now apply skipn_prefix.
  - unfold size, TAG_SIZE, crypto_aead_chacha20poly1305_IETF_ABYTES. lia.
  - unfold size. rewrite length_app, Hn, Hs.
    unfold NONCE_SIZE, TAG_SIZE, crypto_generichash_blake2b_SALTBYTES,
      crypto_aead_chacha20poly1305_IETF_ABYTES. lia.
Qed.

(** C2.  For every cipher (any master key), every state of the random
    source and every non-empty plaintext, [encrypt] returns a ciphertext
    that [decrypt] of the same cipher turns back into the plaintext. *)
Theorem cipher_roundtrip (plain out out' : list byte) (rng : nat) :
  plain <> [] -> valid_string plain ->
  exists ct rng',
    encrypt self plain out rng = (Normal tt, ct, rng') /\
    decrypt self ct out' = (Normal tt, plain).
Proof.
  intros Hne Hv. rewrite encrypt_nonempty by assumption.
  pose proof (drawn_nonce_length rng) as Hn.
  pose proof (sealed_length (drawn_nonce rng) plain) as Hs.
  set (nonce := drawn_nonce rng) in *.
  eexists. eexists. split; [reflexivity|].
  assert (Hsz : size (nonce ++ sealed self nonce plain) = size plain + 32).
  { unfold size. rewrite length_app. lia. }
  unfold valid_string, PTRDIFF_MAX in Hv. pose proof (size_nonneg plain).
  rewrite decrypt_long.
  - change (Z.to_nat NONCE_SIZE) with 16%nat.
    rewrite skipn_prefix by (symmetry; exact Hn).
    rewrite derive_chacha_key_prefix, npub_at_prefix by exact Hn.
    unfold sealed. now rewrite aead_decrypt_encrypt.
  - rewrite Hsz. unfold NONCE_SIZE, TAG_SIZE,
      crypto_generichash_blake2b_SALTBYTES,
      crypto_aead_chacha20poly1305_IETF_ABYTES.
    destruct plain; [congruence|]. unfold size. simpl length. lia.
  - rewrite Hsz. unfold SIZE_MAX. lia.
Qed.

(** C5.  [decrypt] throws [invalid_argument] exactly when the input has
    at most [NONCE_SIZE + TAG_SIZE] bytes; on a longer input it returns
    normally or throws [runtime_error], the decryption failure. *)
Theorem decrypt_invalid_iff_short (in_ out : list byte) :
  valid_string in_ ->
  (size in_ <= NONCE_SIZE + TAG_SIZE ->
   decrypt self in_ out = (Throw invalid_argument, out)) /\
  (NONCE_SIZE + TAG_SIZE < size in_ ->
   fst (decrypt self in_ out) <> Throw invalid_argument /\
   (fst (decrypt self in_ out) = Normal tt \/
    fst (decrypt self in_ out) = Throw runtime_error)).
Proof.
  intros Hv. split.
  - intros Hs. unfold decrypt. fold TAG_SIZE.
    destruct (Z.leb_spec (size in_) (NONCE_SIZE + TAG_SIZE)); [reflexivity|lia].
  - intros Hl. rewrite decrypt_long;
      [|assumption|unfold valid_string, PTRDIFF_MAX, SIZE_MAX in *; lia].
    destruct (crypto_aead_chacha20poly1305_ietf_decrypt _ _ _ _);
      cbn [fst]; split; (discriminate || auto).
Qed.

(** C10.  Whenever [decrypt] throws, for a short input or for a failed
    verification, the caller's [out] is what it was before the call: [out]
    is assigned only when decryption has succeeded. *)
Theorem decrypt_throw_keeps_out (in_ out out' : list byte)
        (r : outcome unit) :
  decrypt self in_ out = (r, out') ->
  (forall e, r = Throw e -> out' = out) /\
  (out' <> out -> r = Normal tt).
Proof.
  unfold decrypt.
  destruct (size in_ <=? _).
  - intros [= <- <-]. split; [reflexivity|congruence].
  - destruct (decrypt_raw _ _ _) as [[u|e'|] data']; intros [= <- <-];
      split; try congruence; intros; reflexivity || discriminate.
Qed.

End CipherProperties.

(** *** The stand-in AEAD meets the contract *)

Lemma bytes_eqb_refl (l : list byte) : Toy.bytes_eqb l l = true.
Proof.
  induction l as [|b l IH]; simpl; [reflexivity|].
  rewrite IH, (Byte.byte_dec_lb (eq_refl b)). reflexivity.
Qed.

Lemma toy_seal_length (m ad npub k : list byte) :
  size (Toy.seal m ad npub k)
  = size m + crypto_aead_chacha20poly1305_IETF_ABYTES.
Proof.
  unfold Toy.seal, Toy.tag. rewrite size_app. unfold size.
  rewrite repeat_length. reflexivity.
Qed.

Lemma toy_open_length (c ad npub k m : list byte) :
  Toy.open_ c ad npub k = Some m ->
  size m = size c - crypto_aead_chacha20poly1305_IETF_ABYTES.
Proof.
  unfold Toy.open_.
  destruct (Nat.leb_spec 16 (length c)); simpl; [|discriminate].
  destruct (Toy.bytes_eqb _ _); [|discriminate].
  intros [= <-]. unfold size, crypto_aead_chacha20poly1305_IETF_ABYTES.
  rewrite length_firstn. lia.
Qed.

Lemma toy_open_seal (m ad npub k : list byte) :
  Toy.open_ (Toy.seal m ad npub k) ad npub k = Some m.
Proof.
  unfold Toy.open_, Toy.seal.
  assert (Hl : length (m ++ Toy.tag k) = (length m + 16)%nat)
    by (unfold Toy.tag; now rewrite length_app, repeat_length).
  rewrite Hl. replace (length m + 16 - 16)%nat with (length m) by lia.
  rewrite skipn_prefix, firstn_prefix, bytes_eqb_refl by reflexivity.
  destruct (Nat.leb_spec 16 (length m + 16)); [reflexivity|lia].
Qed.

Lemma toy_plain_valid : valid_string [x68; x69].
Proof. vm_compute. discriminate. Qed.

(** *** Witnesses for the cipher *)

Lemma encrypt_invalid_iff_empty_witness :
  valid_string [x68; x69] /\
  (fst (fst (encrypt Toy.cipher [x68; x69] [] 0)) = Throw invalid_argument
   <-> [x68; x69] = []) /\
  ([x68; x69] <> [] ->
   exists ct rng',
     encrypt Toy.cipher [x68; x69] [] 0 = (Normal tt, ct, rng') /\
     size ct = size [x68; x69] + NONCE_SIZE + TAG_SIZE).
Proof.
  split; [exact toy_plain_valid|].
  apply (encrypt_invalid_iff_empty (prim := Toy.primitives)
           Toy.cipher toy_seal_length).
  exact toy_plain_valid.
Defined.

Lemma encrypt_layout_witness :
  exists ct rng',
    encrypt Toy.cipher [x68; x69] [] 0 = (Normal tt, ct, rng') /\
    firstn (Z.to_nat NONCE_SIZE) ct = drawn_nonce 0 /\
    size (drawn_nonce 0) = NONCE_SIZE /\
    skipn (Z.to_nat NONCE_SIZE) ct
    = sealed Toy.cipher (drawn_nonce 0) [x68; x69] /\
    size (sealed Toy.cipher (drawn_nonce 0) [x68; x69])
    = size [x68; x69] + TAG_SIZE /\
    size ct = size [x68; x69] + NONCE_SIZE + TAG_SIZE.
Proof.
  apply (encrypt_layout (prim := Toy.primitives)
           Toy.cipher toy_seal_length);
    [discriminate|exact toy_plain_valid].
Defined.

Lemma cipher_roundtrip_witness :
  exists ct rng',
    encrypt Toy.cipher [x68; x69] [] 0 = (Normal tt, ct, rng') /\
    decrypt Toy.cipher ct [x21] = (Normal tt, [x68; x69]).
Proof.
  apply (cipher_roundtrip (prim := Toy.primitives) Toy.cipher
           toy_seal_length toy_open_length toy_open_seal);
    [discriminate|exact toy_plain_valid].
Defined.

Lemma decrypt_invalid_iff_short_witness :
  (size (repeat x00 32) <= NONCE_SIZE + TAG_SIZE ->
   decrypt Toy.cipher (repeat x00 32) [x21]
   = (Throw invalid_argument, [x21])) /\
  (NONCE_SIZE + TAG_SIZE < size (repeat x00 32) ->
   fst (decrypt Toy.cipher (repeat x00 32) [x21]) <> Throw invalid_argument /\
   (fst (decrypt Toy.cipher (repeat x00 32) [x21]) = Normal tt \/
    fst (decrypt Toy.cipher (repeat x00 32) [x21]) = Throw runtime_error)).
Proof.
  apply (decrypt_invalid_iff_short (prim := Toy.primitives)
           Toy.cipher toy_open_length).
  vm_compute. discriminate.
Defined.

(** The scenario of the specification on the stand-in primitives: a
    13-byte plaintext gives a 45-byte ciphertext, which decrypts to the
    plaintext; with its last byte incremented it fails verification and
    [out] keeps its value. *)
Example scenario_encrypt :
  fst (fst (encrypt Toy.cipher Toy.scenario_plain [] 0)) = Normal tt /\
  size Toy.scenario_cipher = 45 /\
  firstn 16 Toy.scenario_cipher = drawn_nonce 0.
Proof. vm_compute. repeat split. Qed.

Example scenario_decrypt :
  decrypt Toy.cipher Toy.scenario_cipher [x21]
  = (Normal tt, Toy.scenario_plain).
Proof. vm_compute. reflexivity. Qed.

Example scenario_tampered :
  decrypt Toy.cipher (removelast Toy.scenario_cipher ++ [x08]) [x21]
  = (Throw runtime_error, [x21]).
Proof. vm_compute. reflexivity. Qed.

(** A 40-byte string that does not carry the tag fails verification. *)
Lemma decrypt_throw_keeps_out_witness :
  decrypt Toy.cipher (repeat x00 40) [x21] = (Throw runtime_error, [x21]) /\
  (forall e, Throw (A := unit) runtime_error = Throw e -> [x21] = [x21]) /\
  ([x21] <> [x21] -> Throw runtime_error = Normal tt).
Proof.
  assert (E : decrypt Toy.cipher (repeat x00 40) [x21]
              = (Throw runtime_error, [x21]))
    by (vm_compute; reflexivity).
  split; [exact E|].
  exact (decrypt_throw_keeps_out (prim := Toy.primitives)
           Toy.cipher _ _ _ _ E).
Defined.

(** ** Prf: counter-mode expansion *)

Import Prf.

Lemma write_in_bounds buf off data :
  (off + length data <= length buf)%nat ->
  Buffer.write buf off data
  = Some (firstn off buf ++ data ++ skipn (off + length data) buf).
Proof.
  intros H. unfold Buffer.write.
  destruct (Nat.leb_spec (off + length data) (length buf)); [reflexivity|lia].
Qed.

Lemma write_after done_ rest data :
  (length data <= length rest)%nat ->
  Buffer.write (done_ ++ rest) (length done_) data
  = Some ((done_ ++ data) ++ skipn (length data) rest).
Proof.
  intros H. rewrite write_in_bounds by (rewrite length_app; lia).
  rewrite firstn_prefix by reflexivity.
  rewrite skipn_app, skipn_all2 by lia.
  replace (length done_ + length data - length done_)%nat
    with (length data) by lia.
  simpl. now rewrite <- app_assoc.
Qed.

Lemma to_uint8_succ (k : Z) : to_uint8 (to_uint8 k + 1) = to_uint8 (k + 1).
Proof. unfold to_uint8. now rewrite Zplus_mod_idemp_l. Qed.

Lemma byte_of_Z_to_uint8 (k : Z) : byte_of_Z (to_uint8 k) = byte_of_Z k.
Proof. unfold byte_of_Z, to_uint8. now rewrite Zmod_mod. Qed.

(** Cutting a block that reaches the end of the output, or cutting it at
    its full length, does not change the first [n] bytes. *)
Lemma firstn_cut_block {A} (n m : nat) (done_ b rest : list A) :
  (length b <= m \/ n <= length done_ + m)%nat ->
  firstn n (done_ ++ firstn m b ++ rest) = firstn n (done_ ++ b ++ rest).
Proof.
  intros [H|H].
  - now rewrite (firstn_all2 b) by exact H.
  - destruct (Nat.le_gt_cases (length b) m) as [Hb|Hb].
    + now rewrite (firstn_all2 b) by exact Hb.
    + rewrite !(firstn_app n done_). f_equal.
      rewrite !firstn_app, length_firstn.
      replace (n - length done_ - Nat.min m (length b))%nat with 0%nat by lia.
      replace (n - length done_ - length b)%nat with 0%nat by lia.
      simpl. rewrite !app_nil_r, firstn_firstn. f_equal. lia.
Qed.

Section PrfProperties.
Context {H : KeyedHash} {M : Buffer.Memory}.
Variable self : Prf.

(** *** The loop on the outputs it was written for *)

Hypothesis kDigestSize_pos : 0 < kDigestSize.
Hypothesis hmac_digest_length : forall key msg,
  size (hmac_digest key msg) = kDigestSize.

Lemma block_length in_ k : length (block self in_ k) = Z.to_nat kDigestSize.
Proof.
  pose proof (hmac_digest_length (base_ self)
                (in_ ++ [byte_of_Z (Z.of_nat k)])) as E.
  unfold block. unfold size in E. lia.
Qed.

Lemma prf_loop_step fuel NBYTES in_ pos i result :
  prf_loop (S fuel) self NBYTES in_ pos i result
  = if pos <? NBYTES then
      match Buffer.write result (Z.to_nat pos)
              (hmac self (in_ ++ [byte_of_Z i])
                 (if kDigestSize <=? NBYTES - pos then kDigestSize
                  else NBYTES - pos)) with
      | Some result' =>
          prf_loop fuel self NBYTES in_
            (to_uint16 (pos + kDigestSize)) (to_uint8 (i + 1)) result'
      | None => Some Undefined
      end
    else Some (Normal result).
Proof. reflexivity. Qed.

(** The invariant of the loop: [k] blocks are done, [pos] is [k] digests
    in, the counter is [k] as a byte, and [n] more blocks are needed. *)
Lemma prf_loop_blocks (NBYTES : Z) (in_ : list byte) (extra n : nat) :
  forall (k : nat) (done_ rest : list byte),
    let pos := Z.of_nat k * kDigestSize in
    pos + Z.of_nat n * kDigestSize <= 65535 ->
    NBYTES <= pos + Z.of_nat n * kDigestSize ->
    (forall n', n = S n' -> pos + Z.of_nat n' * kDigestSize < NBYTES) ->
    size done_ = Z.min pos NBYTES ->
    size (done_ ++ rest) = NBYTES ->
    prf_loop (S (n + extra)) self NBYTES in_ pos
      (to_uint8 (Z.of_nat k)) (done_ ++ rest)
    = Some (Normal
              (firstn (Z.to_nat NBYTES)
                 (done_ ++ flat_map (block self in_) (seq k n)))).
Proof.
  induction n as [|n IH]; intros k done_ rest pos Hmax Hend Hlast Hd Hr.
  - (* no block left: the loop exits *)
    rewrite prf_loop_step. simpl Z.of_nat in *.
    destruct (Z.ltb_spec pos NBYTES); [lia|].
    do 2 f_equal. rewrite size_app in Hr.
    pose proof (size_nonneg rest).
    assert (rest = []) by (apply length_zero_iff_nil; unfold size in *; lia).
    subst rest. simpl. rewrite !app_nil_r.
    symmetry. apply firstn_all2. unfold size in *. lia.
  - (* one more block *)
    specialize (Hlast n eq_refl).
    rewrite prf_loop_step.
    assert (Hpos0 : 0 <= pos) by (unfold pos; nia).
    destruct (Z.ltb_spec pos NBYTES); [|nia].
    rewrite byte_of_Z_to_uint8. fold (block self in_ k).
    set (out_len := if kDigestSize <=? NBYTES - pos then kDigestSize
                    else NBYTES - pos).
    assert (Hol : 0 < out_len <= kDigestSize /\ out_len <= NBYTES - pos
                  /\ (out_len = kDigestSize \/ out_len = NBYTES - pos)).
    { unfold out_len. destruct (Z.leb_spec kDigestSize (NBYTES - pos)); lia. }
    assert (Hdl : Z.to_nat pos = length done_) by (unfold size in Hd; lia).
    unfold hmac. fold (block self in_ k).
    set (data := firstn (Z.to_nat out_len) (block self in_ k)).
    assert (Hdata : length data = Z.to_nat out_len).
    { unfold data. rewrite length_firstn, block_length. lia. }
    rewrite Hdl, write_after
      by (rewrite size_app in Hr; unfold size in *; lia).
    unfold to_uint16. rewrite Z.mod_small by nia.
    rewrite to_uint8_succ.
    replace (pos + kDigestSize) with (Z.of_nat (S k) * kDigestSize)
      by (unfold pos; lia).
    replace (Z.of_nat k + 1) with (Z.of_nat (S k)) by lia.
    rewrite IH.
    + do 2 f_equal. cbn [seq flat_map]. unfold data.
      rewrite <- !app_assoc. apply firstn_cut_block.
      rewrite block_length. unfold size in Hd. lia.
    + lia.
    + lia.
    + intros n' ->. lia.
    + rewrite size_app. unfold size at 2. rewrite Hdata. lia.
    + rewrite !size_app in *. unfold size in *.
      rewrite Hdata, length_skipn. lia.
Qed.

(** The expansion on the outputs the loop was written for.  For an output
    length above one digest whose last block ends within the range of the
    16-bit position, [prf] returns, the result is the concatenation of
    the digests of [in || counter byte] cut to [NBYTES] bytes, and it has
    exactly [NBYTES] bytes. *)
Theorem prf_counter_mode (NBYTES : Z) (in_ : list byte) (extra : nat) :
  kDigestSize < NBYTES -> NBYTES + kDigestSize <= 65536 ->
  prf (S (blocks_needed NBYTES + extra)) self NBYTES (Some in_)
  = Some (Normal (counter_mode_expansion self NBYTES in_)) /\
  size (counter_mode_expansion self NBYTES in_) = NBYTES.
Proof.
  intros Hlong Hmax.
  pose proof (Z.div_mod (NBYTES + kDigestSize - 1) kDigestSize) as Hdm.
  pose proof (Z.mod_pos_bound (NBYTES + kDigestSize - 1) kDigestSize
                kDigestSize_pos) as Hmb.
  specialize (Hdm ltac:(lia)).
  set (q := (NBYTES + kDigestSize - 1) / kDigestSize) in *.
  assert (Hq : 0 <= q) by (apply Z.div_pos; lia).
  assert (Hn : Z.of_nat (blocks_needed NBYTES) = q)
    by (unfold blocks_needed; fold q; lia).
  split.
  - unfold prf. destruct (Z.ltb_spec kDigestSize NBYTES); [|lia].
    pose proof (prf_loop_blocks NBYTES in_ extra (blocks_needed NBYTES)
                  0%nat [] (Buffer.new_array NBYTES)) as L.
    cbn zeta in L. simpl app in L. change (Z.of_nat 0) with 0 in L.
    change (to_uint8 0) with 0 in L. rewrite Z.mul_0_l in L.
    apply L.
    + rewrite Hn. nia.
    + rewrite Hn. nia.
    + intros n' E. assert (Z.of_nat n' = q - 1) by lia. nia.
    + unfold size. simpl. lia.
    + unfold size. rewrite new_array_length. lia.
  - unfold counter_mode_expansion, size. rewrite length_firstn.
    assert (Hlen : forall n k,
               length (flat_map (block self in_) (seq k n))
               = (n * Z.to_nat kDigestSize)%nat).
    { induction n as [|n IHn]; intros k; simpl; [reflexivity|].
      now rewrite length_app, block_length, IHn. }
    rewrite Hlen. nia.
Qed.

End PrfProperties.

(** Three blocks for 130 bytes of output: two whole digests and two bytes
    of the third. *)
Example prf_130_bytes :
  prf 4 Toy.prf_key 130 (Some [x61])
  = Some (Normal (repeat x00 64 ++ repeat x01 64 ++ repeat x02 2)).
Proof. vm_compute. reflexivity. Qed.

Lemma prf_counter_mode_witness :
  prf 4 Toy.prf_key 130 (Some [x61])
  = Some (Normal (counter_mode_expansion Toy.prf_key 130 [x61])) /\
  size (counter_mode_expansion Toy.prf_key 130 [x61]) = 130.
Proof.
  apply (prf_counter_mode (H := Toy.keyed_hash) Toy.prf_key
           ltac:(reflexivity)
           (fun key msg => eq_refl)
           130 [x61] 0%nat); vm_compute; (reflexivity || discriminate).
Defined.

(** *** The loop when the 16-bit position wraps around *)

Section PrfOverflow.
Context {H : KeyedHash} {M : Buffer.Memory}.
Variable self : Prf.
Hypothesis kDigestSize_even : Z.even kDigestSize = true.

Lemma hmac_length_le in_ out_len :
  0 <= out_len -> size (hmac self in_ out_len) <= out_len.
Proof.
  intros Hn. unfold hmac, size.
  pose proof (firstn_le_length (Z.to_nat out_len)
                (hmac_digest (base_ self) in_)). lia.
Qed.

(** An even position below [2^16] is below 65535, and the next position,
    taken modulo [2^16], is even again: the loop condition never fails. *)
Lemma prf_loop_wraps (in_ : list byte) (fuel : nat) :
  forall (pos i : Z) (result : list byte),
    0 <= pos < 65536 -> Z.even pos = true ->
    size result = 65535 ->
    prf_loop fuel self 65535 in_ pos i result = None.
Proof.
  induction fuel as [|fuel IH]; intros pos i result Hpos Heven Hlen;
    [reflexivity|].
  cbn [prf_loop].
  rewrite Zeven_mod in Heven. apply Z.eqb_eq in Heven.
  pose proof kDigestSize_even as HD.
  rewrite Zeven_mod in HD. apply Z.eqb_eq in HD.
  destruct (Z.ltb_spec pos 65535); [|Z.div_mod_to_equations; lia].
  set (out_len := if kDigestSize <=? 65535 - pos then kDigestSize
                  else 65535 - pos).
  set (data := hmac self (in_ ++ [byte_of_Z i]) out_len).
  assert (Hdata : (Z.to_nat pos + length data <= length result)%nat).
  { destruct (Z.le_gt_cases 0 out_len) as [Hn|Hn].
    - pose proof (hmac_length_le (in_ ++ [byte_of_Z i]) out_len Hn) as Hl.
      fold data in Hl. unfold size in Hl.
      assert (out_len <= 65535 - pos)
        by (unfold out_len;
            destruct (Z.leb_spec kDigestSize (65535 - pos)); lia).
      unfold size in Hlen. lia.
    - unfold data, hmac.
      replace (Z.to_nat out_len) with 0%nat by lia.
      unfold size in Hlen. simpl. lia. }
  destruct (Buffer.write result (Z.to_nat pos) data) as [result'|] eqn:Ew.
  - apply IH.
    + unfold to_uint16. apply Z.mod_pos_bound. lia.
    + rewrite Zeven_mod. apply Z.eqb_eq. unfold to_uint16.
      change (2 ^ 16) with 65536. Z.div_mod_to_equations. lia.
    + unfold size. rewrite (write_length _ _ _ _ Ew). exact Hlen.
  - rewrite write_in_bounds in Ew by exact Hdata. discriminate.
Qed.

Lemma prf_wraps (in_ : list byte) (fuel : nat) :
  kDigestSize < 65535 ->
  prf fuel self 65535 (Some in_) = None.
Proof.
  intros Hlt. unfold prf.
  destruct (Z.ltb_spec kDigestSize 65535); [|lia].
  apply prf_loop_wraps; [lia|reflexivity|].
  unfold size. rewrite new_array_length. lia.
Qed.

End PrfOverflow.

(** C3, at [NBYTES = 65535] with the 64-byte digest of the library's hash.
    Whatever the keyed hash computes, whatever the key and the input, the
    call has not returned after any number of iterations: the position
    reaches 65472, the last block is written, and 65472 + 64 wraps to 0. *)
Theorem prf_65535_never_returns
        (digest : list byte -> list byte -> list byte)
        (M : Buffer.Memory) (self : Prf) (in_ : list byte) (fuel : nat) :
  prf (H := {| kDigestSize := 64; hmac_digest := digest |})
    fuel self 65535 (Some in_) = None.
Proof. apply prf_wraps; reflexivity. Qed.

(** The earlier revision stops at its assertion for every output length
    above one digest. *)
Lemma legacy_prf_asserts {H : KeyedHash} {M : Buffer.Memory}
      (self : Prf) (NBYTES : Z) (in_ : list byte) :
  kDigestSize < NBYTES ->
  PrfLegacy.prf self NBYTES in_ = PrfLegacy.AssertionFailed.
Proof.
  intros Hl. unfold PrfLegacy.prf.
  destruct (Z.leb_spec NBYTES kDigestSize); [lia|reflexivity].
Qed.

(** ** SetHash: the algebra of the multiset hash *)

Import SetHash.

(** *** Hexadecimal strings *)

Lemma hex_byte_roundtrip (b : byte) :
  match hex_value (hex_digit (Byte.to_N b / 16)),
        hex_value (hex_digit (Byte.to_N b mod 16)) with
  | Some h, Some l => Byte.of_N (h * 16 + l)
  | _, _ => None
  end = Some b.
Proof. destruct b; reflexivity. Qed.

Lemma bytes_of_hex_cons (hi lo : byte) (s : list byte) :
  bytes_of_hex (hi :: lo :: s)
  = match hex_value hi, hex_value lo, bytes_of_hex s with
    | Some h, Some l, Some rest =>
        match Byte.of_N (h * 16 + l) with
        | Some b => Some (b :: rest)
        | None => None
        end
    | _, _, _ => None
    end.
Proof. reflexivity. Qed.

Lemma bytes_of_hex_of_bytes (l : list byte) :
  bytes_of_hex (hex_of_bytes l) = Some l.
Proof.
  induction l as [|b l IH]; [reflexivity|].
  cbn [hex_of_bytes]. rewrite bytes_of_hex_cons, IH.
  pose proof (hex_byte_roundtrip b) as Hb.
  destruct (hex_value (hex_digit (Byte.to_N b / 16))) as [h|];
    [|discriminate].
  destruct (hex_value (hex_digit (Byte.to_N b mod 16))) as [lo|];
    [|discriminate].
  now rewrite Hb.
Qed.

Section SetHashProperties.
Context {E : Engine}.

(** The engine computes in a commutative group, its equality test
    decides equality of group elements, and its encoding is lossless. *)
Hypothesis combine_assoc : forall a b c : State,
  combine a (combine b c) = combine (combine a b) c.
Hypothesis combine_comm : forall a b : State, combine a b = combine b a.
Hypothesis combine_identity : forall a : State, combine a identity = a.
Hypothesis combine_inverse : forall a : State,
  combine a (inverse a) = identity.
Hypothesis equal_spec : forall a b : State, equal a b = true <-> a = b.
Hypothesis decode_encode : forall a : State, decode (encode a) = Some a.

Lemma eqb_spec (h1 h2 : SetHashImpl) :
  eqb h1 h2 = true <-> state_ h1 = state_ h2.
Proof. unfold eqb. apply equal_spec. Qed.

(** C7.  Adding [a] then [b] to any state gives a state equal, under
    [operator==], to adding [b] then [a]. *)
Theorem add_element_comm (h : SetHashImpl) (a b : list byte) :
  eqb (add_element (add_element h a) b)
      (add_element (add_element h b) a) = true.
Proof.
  apply eqb_spec. unfold add_element, add. cbn [state_].
  rewrite <- !combine_assoc. f_equal. apply combine_comm.
Qed.

(** C8.  Adding [x] to any state and removing it again gives a state
    equal, under [operator==], to the one before; in particular this
    holds from the empty hash. *)
Theorem add_remove_cancel (h : SetHashImpl) (x : list byte) :
  eqb (remove_element (add_element h x) x) h = true /\
  eqb (remove_element (add_element SetHashImpl_new x) x) SetHashImpl_new
  = true.
Proof.
  assert (Hc : forall g : SetHashImpl,
             eqb (remove_element (add_element g x) x) g = true).
  { intros g. apply eqb_spec. unfold remove_element, add_element, remove, add.
    cbn [state_].
    now rewrite <- combine_assoc, combine_inverse, combine_identity. }
  split; apply Hc.
Qed.

(** C9.  Building a hash from the hexadecimal string of any state
    succeeds and gives a state equal, under [operator==], to it. *)
Theorem of_hex_hex (h : SetHashImpl) :
  exists h', SetHashImpl_of_hex (hex h) = Some h' /\ eqb h' h = true.
Proof.
  exists h. split.
  - unfold SetHashImpl_of_hex, hex, from_hex, to_hex.
    rewrite bytes_of_hex_of_bytes, decode_encode. now destruct h.
  - now apply eqb_spec.
Qed.

End SetHashProperties.

(** *** The two-element group meets the hypotheses *)

Lemma toy_combine_assoc (a b c : bool) : xorb a (xorb b c) = xorb (xorb a b) c.
Proof. now destruct a, b, c. Qed.

Lemma toy_equal_spec (a b : bool) : Bool.eqb a b = true <-> a = b.
Proof. apply Bool.eqb_true_iff. Qed.

Lemma toy_decode_encode (a : bool) :
  decode (Engine := Toy.engine) (encode (Engine := Toy.engine) a) = Some a.
Proof. now destruct a. Qed.

Lemma add_element_comm_witness :
  eqb (add_element (add_element SetHashImpl_new [x61]) [x62; x63])
      (add_element (add_element SetHashImpl_new [x62; x63]) [x61]) = true.
Proof.
  apply (add_element_comm (E := Toy.engine) toy_combine_assoc xorb_comm
           toy_equal_spec).
Defined.

Lemma add_remove_cancel_witness :
  eqb (remove_element (add_element (SetHashImpl_of_state true) [x61]) [x61])
      (SetHashImpl_of_state true) = true /\
  eqb (remove_element (add_element SetHashImpl_new [x61]) [x61])
      SetHashImpl_new = true.
Proof.
  apply (add_remove_cancel (E := Toy.engine) toy_combine_assoc
           xorb_false_r xorb_nilpotent toy_equal_spec).
Defined.

Lemma of_hex_hex_witness :
  exists h',
    SetHashImpl_of_hex (hex (add_element SetHashImpl_new [x61])) = Some h' /\
    eqb h' (add_element SetHashImpl_new [x61]) = true.
Proof.
  apply (of_hex_hex (E := Toy.engine) toy_equal_spec toy_decode_encode).
Defined.

Example toy_hex : hex (add_element SetHashImpl_new [x61]) = [x30; x31].
Proof. reflexivity. Qed.

(** * Further properties *)

(** ** Cipher: lengths, error paths and the raw buffers *)

(** [plaintext_length] never wraps around: on every [size_t] it is the
    excess of [c_len] over nonce and tag, or 0 when there is none, and
    [ciphertext_length] maps it back to every [c_len] above nonce and
    tag. *)
Theorem plaintext_length_no_underflow (c_len : Z) :
  0 <= c_len <= SIZE_MAX ->
  plaintext_length c_len = Z.max 0 (c_len - NONCE_SIZE - TAG_SIZE) /\
  plaintext_length c_len <= c_len /\
  (NONCE_SIZE + TAG_SIZE < c_len ->
   ciphertext_length (plaintext_length c_len) = c_len).
Proof.
  intros Hc.
  assert (HN : NONCE_SIZE + TAG_SIZE = 32) by reflexivity.
  destruct (Z.le_gt_cases c_len (NONCE_SIZE + TAG_SIZE)) as [Hs|Hl].
  - assert (E : plaintext_length c_len = 0).
    { unfold plaintext_length. fold TAG_SIZE.
      destruct (Z.ltb_spec (NONCE_SIZE + TAG_SIZE) c_len); [lia|reflexivity]. }
    rewrite E. repeat apply conj; lia.
  - rewrite plaintext_length_exact by lia. repeat apply conj; try lia.
    intros _. rewrite ciphertext_length_exact; lia.
Qed.

Lemma plaintext_length_no_underflow_witness :
  plaintext_length 45 = Z.max 0 (45 - NONCE_SIZE - TAG_SIZE) /\
  plaintext_length 45 <= 45 /\
  (NONCE_SIZE + TAG_SIZE < 45 ->
   ciphertext_length (plaintext_length 45) = 45).
Proof.
  apply (plaintext_length_no_underflow 45).
  split; vm_compute; discriminate.
Defined.

Section CipherFurther.
Context {prim : Primitives} {M : Buffer.Memory}.
Variable self : CipherImpl.

Hypothesis aead_encrypt_length : forall m ad npub k,
  size (crypto_aead_chacha20poly1305_ietf_encrypt m ad npub k)
  = size m + crypto_aead_chacha20poly1305_IETF_ABYTES.
Hypothesis aead_decrypt_length : forall c ad npub k m,
  crypto_aead_chacha20poly1305_ietf_decrypt c ad npub k = Some m ->
  size m = size c - crypto_aead_chacha20poly1305_IETF_ABYTES.

Lemma encrypt_raw_no_throw (in_ out : list byte) (rng : nat) (e : exn) :
  fst (encrypt_raw self in_ out rng) <> Throw e.
Proof.
  unfold encrypt_raw.
  destruct (random_bytes NONCE_SIZE rng) as [nonce rng'].
  destruct (Buffer.write out 0 nonce) as [out1|]; [|discriminate].
  destruct (Buffer.write out1 _ _); discriminate.
Qed.

(** When [encrypt] throws, the plaintext was empty, the exception is
    [invalid_argument], and neither [out] nor the random source has been
    touched. *)
Theorem encrypt_throw_untouched (in_ out out' : list byte)
        (rng rng' : nat) (e : exn) :
  encrypt self in_ out rng = (Throw e, out', rng') ->
  in_ = [] /\ e = invalid_argument /\ out' = out /\ rng' = rng.
Proof.
  unfold encrypt. destruct in_ as [|b l].
  - intros [= <- <- <-]. repeat split.
  - pose proof (encrypt_raw_no_throw (b :: l)
                  (Buffer.new_array (ciphertext_length (size (b :: l))))
                  rng) as Hn.
    destruct (encrypt_raw _ _ _ _) as [[d|e'|] r]; cbn [fst] in Hn;
      intros [=]; subst. now destruct (Hn e).
Qed.

(** Each successful [encrypt] takes exactly [NONCE_SIZE] bytes from the
    random source: two encryptions in a row carry as nonces two adjacent,
    non-overlapping stretches of the random stream. *)
Theorem encrypt_twice_nonces (p1 p2 out out2 : list byte) (rng : nat) :
  p1 <> [] -> p2 <> [] -> valid_string p1 -> valid_string p2 ->
  exists ct1 ct2,
    encrypt self p1 out rng = (Normal tt, ct1, (rng + 16)%nat) /\
    encrypt self p2 out2 (rng + 16)%nat = (Normal tt, ct2, (rng + 32)%nat) /\
    firstn 16 ct1 = map entropy (seq rng 16) /\
    firstn 16 ct2 = map entropy (seq (rng + 16) 16).
Proof.
  intros H1 H2 V1 V2.
  rewrite !(encrypt_nonempty self aead_encrypt_length) by assumption.
  eexists. eexists. repeat apply conj.
  - reflexivity.
  - f_equal. unfold random_bytes. cbn [snd].
    change (Z.to_nat NONCE_SIZE) with 16%nat. lia.
  - rewrite firstn_prefix by (now rewrite drawn_nonce_length). reflexivity.
  - rewrite firstn_prefix by (now rewrite drawn_nonce_length). reflexivity.
Qed.

(** A [decrypt] that returns normally leaves in [out] exactly
    [in.size() - NONCE_SIZE - TAG_SIZE] bytes, at least one. *)
Theorem decrypt_normal_size (in_ out out' : list byte) :
  valid_string in_ ->
  decrypt self in_ out = (Normal tt, out') ->
  size out' = size in_ - NONCE_SIZE - TAG_SIZE /\ 1 <= size out'.
Proof.
  intros Hv. unfold valid_string, PTRDIFF_MAX in Hv.
  destruct (Z.le_gt_cases (size in_) (NONCE_SIZE + TAG_SIZE)) as [Hs|Hl].
  - unfold decrypt. fold TAG_SIZE.
    destruct (Z.leb_spec (size in_) (NONCE_SIZE + TAG_SIZE)); [|lia].
    discriminate.
  - rewrite (decrypt_long self aead_decrypt_length)
      by (assumption || (unfold SIZE_MAX; lia)).
    destruct (crypto_aead_chacha20poly1305_ietf_decrypt _ _ _ _)
      as [m|] eqn:Em; [|discriminate].
    intros [= <-]. apply aead_decrypt_length in Em.
    unfold size in Em. rewrite length_skipn in Em.
    change (Z.to_nat NONCE_SIZE) with 16%nat in Em.
    unfold NONCE_SIZE, TAG_SIZE, crypto_generichash_blake2b_SALTBYTES,
      crypto_aead_chacha20poly1305_IETF_ABYTES in *.
    unfold size in *. lia.
Qed.

(** The raw [decrypt] rejects fewer than [ciphertext_length(0)] bytes
    with [invalid_argument] and leaves the buffer alone.  It lets through
    an input of exactly that length, which the string overload rejects;
    from there on, with room for the message in the buffer, the outcome
    is a normal return or [runtime_error]. *)
Theorem decrypt_raw_threshold (in_ out : list byte) :
  (size in_ < NONCE_SIZE + TAG_SIZE ->
   decrypt_raw self in_ out = (Throw invalid_argument, out)) /\
  (size in_ = NONCE_SIZE + TAG_SIZE ->
   decrypt self in_ out = (Throw invalid_argument, out)) /\
  (NONCE_SIZE + TAG_SIZE <= size in_ <= SIZE_MAX ->
   size in_ - NONCE_SIZE - TAG_SIZE <= size out ->
   fst (decrypt_raw self in_ out) = Normal tt \/
   fst (decrypt_raw self in_ out) = Throw runtime_error).
Proof.
  assert (HN : NONCE_SIZE + TAG_SIZE = 32) by reflexivity.
  repeat apply conj.
  - intros Hs. unfold decrypt_raw. rewrite ciphertext_length_0.
    destruct (Z.ltb_spec (size in_) 32); [reflexivity|lia].
  - intros Hs. unfold decrypt. fold TAG_SIZE.
    destruct (Z.leb_spec (size in_) (NONCE_SIZE + TAG_SIZE)); [reflexivity|lia].
  - intros Hl Hroom. unfold decrypt_raw. rewrite ciphertext_length_0.
    destruct (Z.ltb_spec (size in_) 32); [lia|].
    unfold NONCE_SIZE, TAG_SIZE, crypto_generichash_blake2b_SALTBYTES,
      crypto_aead_chacha20poly1305_IETF_ABYTES in *.
    destruct (crypto_aead_chacha20poly1305_ietf_decrypt _ _ _ _)
      as [m|] eqn:Em.
    + apply aead_decrypt_length in Em.
      unfold crypto_aead_chacha20poly1305_IETF_ABYTES, size in Em.
      rewrite length_skipn in Em.
      rewrite write_prefix by (unfold size in *; lia). now left.
    + rewrite (to_size_t_small (size in_ - 16)), to_size_t_small
        by (unfold SIZE_MAX in *; lia).
      rewrite write_prefix
        by (rewrite repeat_length; unfold size in *; lia).
      now right.
Qed.

(** The raw [encrypt] has no check for an empty input.  Given a buffer of
    at least [len + NONCE_SIZE + TAG_SIZE] bytes it writes the nonce and
    the AEAD output to its front and nothing behind them; a shorter
    buffer is overrun. *)
Theorem encrypt_raw_frame (in_ out : list byte) (rng : nat) :
  (size in_ + NONCE_SIZE + TAG_SIZE <= size out ->
   encrypt_raw self in_ out rng
   = (Normal (drawn_nonce rng ++ sealed self (drawn_nonce rng) in_
              ++ skipn (length in_ + 32) out),
      (rng + 16)%nat)) /\
  (size out < size in_ + NONCE_SIZE + TAG_SIZE ->
   fst (encrypt_raw self in_ out rng) = Undefined).
Proof.
  assert (HN : NONCE_SIZE = 16 /\ TAG_SIZE = 16) by (split; reflexivity).
  destruct HN as [HN HT].
  pose proof (drawn_nonce_length rng) as Hn.
  pose proof (sealed_length self aead_encrypt_length) as Hs.
  unfold encrypt_raw, drawn_nonce in *.
  destruct (random_bytes NONCE_SIZE rng) as [nonce rng'] eqn:Er.
  assert (Hr : rng' = (rng + 16)%nat).
  { unfold random_bytes in Er. injection Er as _ <-.
    change (Z.to_nat NONCE_SIZE) with 16%nat. reflexivity. }
  cbn [fst] in *. subst rng'. split.
  - intros Hroom. unfold size in Hroom.
    rewrite write_prefix by lia.
    rewrite derive_chacha_key_prefix, npub_at_prefix by exact Hn.
    fold (sealed self nonce in_). specialize (Hs nonce in_).
    change (Z.to_nat NONCE_SIZE) with 16%nat.
    rewrite write_in_bounds
      by (rewrite length_app, length_skipn; lia).
    rewrite firstn_prefix by (symmetry; exact Hn).
    rewrite skipn_app, Hn, Hs, skipn_skipn.
    replace (16 + (length in_ + 16) - 16)%nat
      with (length in_ + 16)%nat by lia.
    replace (skipn (16 + (length in_ + 16)) nonce) with (@nil byte)
      by (symmetry; apply skipn_all2; lia).
    cbn [app].
    replace (length in_ + 16 + 16)%nat with (length in_ + 32)%nat by lia.
    reflexivity.
  - intros Hshort. unfold size in Hshort.
    destruct (Buffer.write out 0 nonce) as [out1|] eqn:E1; [|reflexivity].
    pose proof (write_length _ _ _ _ E1) as Hl1.
    rewrite write_prefix in E1
      by (unfold Buffer.write in E1; simpl in E1;
          destruct (Nat.leb_spec (length nonce) (length out));
          [assumption|discriminate]).
    injection E1 as <-.
    rewrite derive_chacha_key_prefix, npub_at_prefix by exact Hn.
    fold (sealed self nonce in_). specialize (Hs nonce in_).
    unfold Buffer.write. change (Z.to_nat NONCE_SIZE) with 16%nat.
    destruct (Nat.leb_spec (16 + length (sealed self nonce in_))
                (length (nonce ++ skipn (length nonce) out)));
      [lia|reflexivity].
Qed.

End CipherFurther.

(** ** Prf: the single block, relations between output lengths, and the
    range of the 16-bit position *)


Lemma byte_of_Z_period (k : Z) : byte_of_Z (k + 256) = byte_of_Z k.
Proof.
  unfold byte_of_Z, to_uint8. change (2 ^ 8) with 256.
  replace (k + 256) with (k + 1 * 256) by lia.
  now rewrite Z_mod_plus_full.
Qed.

Section PrfFurther.
Context {H : KeyedHash} {M : Buffer.Memory}.
Variable self : Prf.

Hypothesis kDigestSize_pos : 0 < kDigestSize.
Hypothesis hmac_digest_length : forall key msg,
  size (hmac_digest key msg) = kDigestSize.

Let d : nat := Z.to_nat kDigestSize.

Lemma blocks_length in_ (n k : nat) :
  length (flat_map (block self in_) (seq k n)) = (n * d)%nat.
Proof.
  revert k. induction n as [|n IH]; intros k; simpl; [reflexivity|].
  rewrite length_app,
    (block_length self kDigestSize_pos hmac_digest_length), IH.
  reflexivity.
Qed.

Lemma blocks_needed_bounds (NBYTES : Z) :
  0 <= NBYTES ->
  NBYTES <= Z.of_nat (blocks_needed NBYTES) * kDigestSize
  < NBYTES + kDigestSize.
Proof.
  intros Hn. unfold blocks_needed.
  assert (Hnz : kDigestSize <> 0) by (pose proof kDigestSize_pos; lia).
  pose proof (Z.div_mod (NBYTES + kDigestSize - 1) kDigestSize Hnz) as Hdm.
  pose proof (Z.mod_pos_bound (NBYTES + kDigestSize - 1) kDigestSize
                kDigestSize_pos) as Hmb.
  assert (0 <= (NBYTES + kDigestSize - 1) / kDigestSize)
    by (apply Z.div_pos; lia).
  rewrite Z2Nat.id by assumption. nia.
Qed.

(** The result of the loop, for the output lengths it handles. *)
Lemma prf_long_result (NBYTES : Z) (in_ : list byte) (extra : nat) :
  kDigestSize < NBYTES -> NBYTES + kDigestSize <= 65536 ->
  prf (S (blocks_needed NBYTES + extra)) self NBYTES (Some in_)
  = Some (Normal (counter_mode_expansion self NBYTES in_)).
Proof.
  intros Hlong Hmax.
  pose proof (blocks_needed_bounds NBYTES ltac:(lia)) as Hb.
  unfold prf. destruct (Z.ltb_spec kDigestSize NBYTES); [|lia].
  pose proof (prf_loop_blocks self kDigestSize_pos hmac_digest_length
                NBYTES in_ extra (blocks_needed NBYTES)
                0%nat [] (Buffer.new_array NBYTES)) as L.
  cbn zeta in L. simpl app in L. change (Z.of_nat 0) with 0 in L.
  change (to_uint8 0) with 0 in L. rewrite Z.mul_0_l in L.
  apply L.
  - lia.
  - lia.
  - intros n' E. rewrite E in Hb. nia.
  - unfold size. simpl. lia.
  - unfold size. rewrite new_array_length. lia.
Qed.

(** For an output of at most one digest, [prf] makes one call of the
    keyed hash on the input as it is, without a counter byte: the result
    is the first [NBYTES] bytes of that digest, [NBYTES] bytes in all, and
    the loop is not entered. *)
Theorem prf_single_block (NBYTES : Z) (in_ : list byte) (fuel : nat) :
  0 <= NBYTES <= kDigestSize ->
  prf fuel self NBYTES (Some in_)
  = Some (Normal (firstn (Z.to_nat NBYTES) (hmac_digest (base_ self) in_)))
  /\ size (firstn (Z.to_nat NBYTES) (hmac_digest (base_ self) in_)) = NBYTES.
Proof.
  intros Hn.
  pose proof (hmac_digest_length (base_ self) in_) as Hd.
  assert (Hl : size (firstn (Z.to_nat NBYTES) (hmac_digest (base_ self) in_))
               = NBYTES)
    by (unfold size in *; rewrite length_firstn; lia).
  split; [|exact Hl].
  unfold prf. destruct (Z.ltb_spec kDigestSize NBYTES); [lia|].
  destruct (Z.leb_spec NBYTES kDigestSize); [|lia].
  unfold hmac. rewrite write_whole; [reflexivity|].
  rewrite new_array_length. unfold size in Hl. lia.
Qed.

(** The two revisions of the template agree on every output length up to
    one digest: both return the first [NBYTES] bytes of the digest of the
    input. *)
Theorem prf_legacy_agrees (NBYTES : Z) (in_ : list byte) (fuel : nat) :
  0 <= NBYTES <= kDigestSize ->
  exists r,
    PrfLegacy.prf self NBYTES in_ = PrfLegacy.Returned r /\
    prf fuel self NBYTES (Some in_) = Some (Normal r) /\
    size r = NBYTES.
Proof.
  intros Hn.
  pose proof (hmac_digest_length (base_ self) in_) as Hd.
  exists (firstn (Z.to_nat NBYTES) (hmac_digest (base_ self) in_)).
  assert (Hl : length (firstn (Z.to_nat NBYTES)
                         (hmac_digest (base_ self) in_))
               = length (Buffer.new_array NBYTES)).
  { rewrite new_array_length, length_firstn. unfold size in Hd. lia. }
  repeat apply conj.
  - unfold PrfLegacy.prf. destruct (Z.leb_spec NBYTES kDigestSize); [|lia].
    now rewrite write_whole.
  - unfold prf. destruct (Z.ltb_spec kDigestSize NBYTES); [lia|].
    destruct (Z.leb_spec NBYTES kDigestSize); [|lia].
    unfold hmac. now rewrite write_whole.
  - unfold size. rewrite Hl, new_array_length. lia.
Qed.


Lemma blocks_prefix in_ (N n m : nat) :
  (n <= m)%nat -> (N <= n * d)%nat ->
  firstn N (flat_map (block self in_) (seq 0 m))
  = firstn N (flat_map (block self in_) (seq 0 n)).
Proof.
  intros Hnm HN.
  replace m with (n + (m - n))%nat by lia.
  rewrite seq_app, flat_map_app.
  apply firstn_prefix_le. now rewrite blocks_length.
Qed.

(** Under one key a shorter long output is the beginning of a longer
    one: [Prf<N>] on an input is the first [N] bytes of [Prf<M>] on the
    same input, for output lengths above one digest. *)
Theorem prf_prefix (N1 N2 : Z) (in_ : list byte) :
  kDigestSize < N1 -> N1 <= N2 -> N2 + kDigestSize <= 65536 ->
  exists r1 r2,
    prf (S (blocks_needed N1)) self N1 (Some in_) = Some (Normal r1) /\
    prf (S (blocks_needed N2)) self N2 (Some in_) = Some (Normal r2) /\
    r1 = firstn (Z.to_nat N1) r2.
Proof.
  intros H1 H12 H2.
  exists (counter_mode_expansion self N1 in_),
         (counter_mode_expansion self N2 in_).
  repeat apply conj.
  - pose proof (prf_long_result N1 in_ 0 H1 ltac:(lia)) as R.
    now rewrite Nat.add_0_r in R.
  - pose proof (prf_long_result N2 in_ 0 ltac:(lia) H2) as R.
    now rewrite Nat.add_0_r in R.
  - pose proof (blocks_needed_bounds N1 ltac:(lia)) as B1.
    pose proof (blocks_needed_bounds N2 ltac:(lia)) as B2.
    unfold counter_mode_expansion. rewrite firstn_firstn.
    replace (Nat.min (Z.to_nat N1) (Z.to_nat N2)) with (Z.to_nat N1) by lia.
    symmetry. apply blocks_prefix; unfold d; nia.
Qed.

Lemma blocks_nth in_ (n : nat) :
  forall (k i : nat),
    (i < n * d)%nat ->
    nth_error (flat_map (block self in_) (seq k n)) i
    = nth_error (block self in_ (k + i / d)) (i mod d).
Proof.
  assert (Hd : (0 < d)%nat) by (unfold d; lia).
  induction n as [|n IH]; intros k i Hi; [lia|].
  cbn [seq flat_map].
  destruct (Nat.lt_ge_cases i d) as [Hlt|Hge].
  - rewrite nth_error_app1
      by (rewrite (block_length self kDigestSize_pos hmac_digest_length);
          exact Hlt).
    rewrite Nat.div_small, Nat.mod_small, Nat.add_0_r by exact Hlt.
    reflexivity.
  - rewrite nth_error_app2
      by (rewrite (block_length self kDigestSize_pos hmac_digest_length);
          exact Hge).
    rewrite (block_length self kDigestSize_pos hmac_digest_length). fold d.
    rewrite IH by lia.
    assert (Ei : i = ((i - d) + 1 * d)%nat) by lia.
    rewrite Ei at 3 4.
    rewrite Nat.div_add, Nat.Div0.mod_add by lia.
    do 2 f_equal. lia.
Qed.

Lemma block_period in_ (k : nat) :
  block self in_ (k + 256) = block self in_ k.
Proof.
  unfold block. do 3 f_equal.
  replace (Z.of_nat (k + 256)) with (Z.of_nat k + 256) by lia.
  apply byte_of_Z_period.
Qed.

(** The counter is one byte: after 256 digests it starts again at 0, and
    a long output repeats itself.  The byte at position
    [p + 256 * kDigestSize] is the byte at position [p]. *)
Theorem prf_output_repeats (NBYTES p : Z) (in_ : list byte) :
  kDigestSize < NBYTES -> NBYTES + kDigestSize <= 65536 ->
  0 <= p -> p + 256 * kDigestSize < NBYTES ->
  exists r,
    prf (S (blocks_needed NBYTES)) self NBYTES (Some in_) = Some (Normal r) /\
    nth_error r (Z.to_nat (p + 256 * kDigestSize))
    = nth_error r (Z.to_nat p) /\
    nth_error r (Z.to_nat p) <> None.
Proof.
  intros Hlong Hmax Hp Hq.
  exists (counter_mode_expansion self NBYTES in_).
  pose proof (blocks_needed_bounds NBYTES ltac:(lia)) as Hb.
  assert (Hd : (0 < d)%nat) by (unfold d; lia).
  split.
  - pose proof (prf_long_result NBYTES in_ 0 Hlong Hmax) as R.
    now rewrite Nat.add_0_r in R.
  - unfold counter_mode_expansion.
    assert (Hi : forall i, (i < Z.to_nat NBYTES)%nat ->
               nth_error
                 (firstn (Z.to_nat NBYTES)
                    (flat_map (block self in_)
                       (seq 0 (blocks_needed NBYTES)))) i
               = nth_error (block self in_ (i / d)) (i mod d)).
    { intros i Hi. rewrite nth_error_firstn.
      destruct (Nat.ltb_spec i (Z.to_nat NBYTES)); [|lia].
      rewrite blocks_nth by (unfold d; nia). reflexivity. }
    rewrite !Hi by lia.
    replace (Z.to_nat (p + 256 * kDigestSize))
      with (Z.to_nat p + 256 * d)%nat by (unfold d; lia).
    rewrite Nat.div_add, Nat.Div0.mod_add by lia.
    rewrite block_period. split; [reflexivity|].
    apply nth_error_Some.
    rewrite (block_length self kDigestSize_pos hmac_digest_length). fold d.
    apply Nat.mod_upper_bound. lia.
Qed.

End PrfFurther.

Section PrfRange.
Context {H : KeyedHash} {M : Buffer.Memory}.
Variable self : Prf.

Hypothesis kDigestSize_pos : 0 < kDigestSize.
Hypothesis kDigestSize_divides : (kDigestSize | 65536).

(** A position that is a multiple of the digest size and below [2^16] is
    at most [2^16 - kDigestSize]; so is the next one, taken modulo
    [2^16]. *)
Lemma prf_loop_never_exits (NBYTES : Z) (in_ : list byte) (fuel : nat) :
  65536 - kDigestSize < NBYTES <= 65535 ->
  forall (pos i : Z) (result : list byte),
    0 <= pos < 65536 -> (kDigestSize | pos) ->
    size result = NBYTES ->
    prf_loop fuel self NBYTES in_ pos i result = None.
Proof.
  intros HN. pose proof kDigestSize_pos as HD.
  induction fuel as [|fuel IH]; intros pos i result Hpos Hdiv Hlen;
    [reflexivity|].
  cbn [prf_loop].
  assert (Hle : pos <= 65536 - kDigestSize).
  { destruct Hdiv as [a Ha]. destruct kDigestSize_divides as [b Hb].
    assert (Hab : a < b) by nia.
    assert (Hab' : (a + 1) * kDigestSize <= b * kDigestSize)
      by (apply Z.mul_le_mono_nonneg_r; lia).
    lia. }
  destruct (Z.ltb_spec pos NBYTES); [|lia].
  set (out_len := if kDigestSize <=? NBYTES - pos then kDigestSize
                  else NBYTES - pos).
  set (data := hmac self (in_ ++ [byte_of_Z i]) out_len).
  assert (Hol : 0 <= out_len <= NBYTES - pos)
    by (unfold out_len;
        destruct (Z.leb_spec kDigestSize (NBYTES - pos)); lia).
  assert (Hdata : (Z.to_nat pos + length data <= length result)%nat).
  { pose proof (hmac_length_le self (in_ ++ [byte_of_Z i]) out_len
                  ltac:(lia)) as Hl.
    fold data in Hl. unfold size in *. lia. }
  rewrite write_in_bounds by exact Hdata.
  apply IH.
  - unfold to_uint16. apply Z.mod_pos_bound. lia.
  - unfold to_uint16. change (2 ^ 16) with 65536.
    rewrite Z.mod_eq by lia. apply Z.divide_sub_r.
    + apply Z.divide_add_r; [exact Hdiv|apply Z.divide_refl].
    + apply Z.divide_mul_l. exact kDigestSize_divides.
  - unfold size in *.
    rewrite !length_app, length_firstn, length_skipn. lia.
Qed.

(** With a digest size that divides [2^16], [prf] does not return for any
    output length above [2^16 - kDigestSize]: after the last block the
    position wraps around to 0.  Together with the result of the loop on
    the lengths up to that bound, this is the exact range on which the
    long form of [prf] returns. *)
Theorem prf_diverges_above (NBYTES : Z) (in_ : list byte) (fuel : nat) :
  kDigestSize < NBYTES ->
  65536 - kDigestSize < NBYTES <= 65535 ->
  prf fuel self NBYTES (Some in_) = None.
Proof.
  intros Hlong HN. unfold prf.
  destruct (Z.ltb_spec kDigestSize NBYTES); [|lia].
  apply prf_loop_never_exits.
  - exact HN.
  - lia.
  - apply Z.divide_0_r.
  - unfold size. rewrite new_array_length. lia.
Qed.

End PrfRange.

(** ** SetHash: sequences of elements and whole hashes *)

Section SetHashFurther.
Context {E : Engine}.

Hypothesis combine_assoc : forall a b c : State,
  combine a (combine b c) = combine (combine a b) c.
Hypothesis combine_comm : forall a b : State, combine a b = combine b a.
Hypothesis combine_identity : forall a : State, combine a identity = a.
Hypothesis combine_inverse : forall a : State,
  combine a (inverse a) = identity.
Hypothesis equal_spec : forall a b : State, equal a b = true <-> a = b.

Abbreviation add_elements := SetHashHandle.add_elements.

Lemma eqb_states (h1 h2 : SetHashImpl) :
  state_ h1 = state_ h2 -> eqb h1 h2 = true.
Proof. intros Hs. unfold eqb. now apply equal_spec. Qed.

Lemma add_elements_cons (h : SetHashImpl) x l :
  add_elements h (x :: l) = add_elements (add_element h x) l.
Proof. reflexivity. Qed.

Lemma combine_swap (s a b : State) :
  combine (combine s a) b = combine (combine s b) a.
Proof. rewrite <- !combine_assoc. f_equal. apply combine_comm. Qed.

Lemma add_elements_state (l : list (list byte)) :
  forall h : SetHashImpl,
    state_ (add_elements h l)
    = combine (state_ h) (state_ (add_elements SetHashImpl_new l)).
Proof.
  induction l as [|x l IH]; intros h.
  - simpl. now rewrite combine_identity.
  - rewrite !add_elements_cons, IH.
    rewrite (IH (add_element SetHashImpl_new x)).
    unfold add_element, add, SetHashImpl_new, initial_state. cbn [state_].
    rewrite (combine_comm identity), combine_identity.
    now rewrite combine_assoc.
Qed.

(** The hash of a sequence of elements does not depend on their order:
    adding the elements of a list and adding those of any permutation of
    it give equal hashes. *)
Theorem add_elements_permutation (h : SetHashImpl)
        (l1 l2 : list (list byte)) :
  Permutation l1 l2 ->
  eqb (add_elements h l1) (add_elements h l2) = true.
Proof.
  intros HP. apply eqb_states. revert h.
  induction HP as [|x l l' _ IH|x y l|l l' l'' _ IH1 _ IH2]; intros h.
  - reflexivity.
  - rewrite !add_elements_cons. apply IH.
  - rewrite !add_elements_cons.
    rewrite (add_elements_state l (add_element (add_element h y) x)).
    rewrite (add_elements_state l (add_element (add_element h x) y)).
    f_equal. unfold add_element, add. cbn [state_]. apply combine_swap.
  - now rewrite IH1.
Qed.

(** [add_set] adds a whole hash in one step: adding the hash of a list of
    elements is adding its elements one by one. *)
Theorem add_set_add_elements (h : SetHashImpl) (l1 l2 : list (list byte)) :
  eqb (add_set (add_elements h l1) (add_elements SetHashImpl_new l2))
      (add_elements h (l1 ++ l2)) = true.
Proof.
  apply eqb_states. unfold add_elements at 3.
  rewrite fold_left_app. fold (add_elements h l1).
  fold (add_elements (add_elements h l1) l2).
  rewrite (add_elements_state l2 (add_elements h l1)). reflexivity.
Qed.

Lemma inverse_involutive (a : State) : inverse (inverse a) = a.
Proof.
  pose proof (combine_assoc (inverse (inverse a)) (inverse a) a) as Hx.
  rewrite (combine_comm (inverse (inverse a)) (inverse a)) in Hx.
  rewrite combine_inverse in Hx.
  rewrite (combine_comm (inverse a) a), combine_inverse in Hx.
  rewrite combine_identity in Hx.
  rewrite (combine_comm identity a), combine_identity in Hx.
  exact Hx.
Qed.

(** [remove_set] undoes [add_set]; it is [add_set] of the inverted hash;
    a hash combined with its inverse is the empty hash; and inverting
    twice gives the hash back. *)
Theorem remove_set_invert_set (h g : SetHashImpl) :
  eqb (remove_set (add_set h g) g) h = true /\
  eqb (remove_set h g) (add_set h (SetHashImpl_of_state (invert_set g)))
  = true /\
  eqb (add_set h (SetHashImpl_of_state (invert_set h))) SetHashImpl_new
  = true /\
  eqb (SetHashImpl_of_state
         (invert_set (SetHashImpl_of_state (invert_set h)))) h = true.
Proof.
  repeat apply conj; apply eqb_states;
    unfold remove_set, add_set, remove_hash, add_hash, invert_set, invert,
      SetHashImpl_of_state, SetHashImpl_new, initial_state; cbn [state_].
  - now rewrite <- combine_assoc, combine_inverse, combine_identity.
  - reflexivity.
  - apply combine_inverse.
  - apply inverse_involutive.
Qed.

(** [remove_element] takes an element out wherever it was added in the
    sequence, and removing an element that was never added is undone by
    adding it afterwards. *)
Theorem remove_element_anywhere (h : SetHashImpl) (x : list byte)
        (l1 l2 : list (list byte)) :
  eqb (remove_element (add_elements h (l1 ++ x :: l2)) x)
      (add_elements h (l1 ++ l2)) = true /\
  eqb (add_element (remove_element h x) x) h = true.
Proof.
  split; apply eqb_states.
  - unfold add_elements. rewrite !fold_left_app.
    fold (add_elements h l1). cbn [fold_left].
    fold (add_elements (add_element (add_elements h l1) x) l2).
    fold (add_elements (add_elements h l1) l2).
    unfold remove_element, remove. cbn [state_].
    rewrite (add_elements_state l2 (add_element _ x)).
    rewrite (add_elements_state l2 (add_elements h l1)).
    unfold add_element, add. cbn [state_].
    rewrite (combine_swap (state_ (add_elements h l1))).
    now rewrite <- combine_assoc, combine_inverse, combine_identity.
  - unfold add_element, remove_element, add, remove. cbn [state_].
    rewrite <- combine_assoc, (combine_comm (inverse _)).
    now rewrite combine_inverse, combine_identity.
Qed.

End SetHashFurther.

(** ** SetHash: handles and the free store *)

Section HandleProperties.
Context {E : Engine} {A : SetHashHandle.Allocator SetHashHandle.heap}.

Import SetHashHandle.

(** The allocator hands out an address that holds no live object. *)
Hypothesis alloc_fresh : forall m : heap, lookup m (alloc m) = None.

Lemma lookup_store_eq (m : heap) p v : lookup (store m p v) p = Some v.
Proof. unfold store. simpl. now rewrite Nat.eqb_refl. Qed.

Lemma lookup_store_ne (m : heap) p q v :
  p <> q -> lookup (store m p v) q = lookup m q.
Proof.
  intros Hne. unfold store. simpl.
  destruct (Nat.eqb_spec p q); [contradiction|reflexivity].
Qed.

Lemma lookup_release_eq (m : heap) p : lookup (release m p) p = None.
Proof.
  induction m as [|[q v] m IH]; simpl; [reflexivity|].
  destruct (Nat.eqb_spec q p) as [->|Hne]; [exact IH|].
  simpl. destruct (Nat.eqb_spec q p); [contradiction|exact IH].
Qed.

Lemma lookup_release_ne (m : heap) p q :
  p <> q -> lookup (release m p) q = lookup m q.
Proof.
  intros Hne. induction m as [|[r v] m IH]; simpl; [reflexivity|].
  destruct (Nat.eqb_spec r p) as [->|Hrp].
  - destruct (Nat.eqb_spec p q); [contradiction|exact IH].
  - simpl. destruct (Nat.eqb_spec r q); [reflexivity|exact IH].
Qed.

Lemma alloc_not_live (m : heap) p v : lookup m p = Some v -> alloc m <> p.
Proof. intros Hl Heq. rewrite <- Heq, alloc_fresh in Hl. discriminate. Qed.

(** [h = h] is undefined: the implementation is deleted before it is
    copied. *)
Theorem self_assignment_faults (a : SetHashObj) (m : heap) :
  assign a a m = Fault.
Proof.
  unfold assign. destruct (lookup m (set_hash_imp_ a)); [|reflexivity].
  now rewrite lookup_release_eq.
Qed.

(** [a = b] for two handles with different live implementations: [a]
    gets an implementation of its own that holds [b]'s state, [b] keeps
    its own, and the one [a] had is deleted. *)
Theorem assign_copies (a b : SetHashObj) (m : heap) (va vb : SetHashImpl) :
  lookup m (set_hash_imp_ a) = Some va ->
  lookup m (set_hash_imp_ b) = Some vb ->
  set_hash_imp_ a <> set_hash_imp_ b ->
  exists a' m',
    assign a b m = Done a' m' /\
    lookup m' (set_hash_imp_ a') = Some vb /\
    lookup m' (set_hash_imp_ b) = Some vb /\
    set_hash_imp_ a' <> set_hash_imp_ b /\
    (set_hash_imp_ a' <> set_hash_imp_ a ->
     lookup m' (set_hash_imp_ a) = None).
Proof.
  intros Ha Hb Hne. unfold assign. rewrite Ha.
  rewrite lookup_release_ne, Hb by exact Hne.
  set (m1 := release m (set_hash_imp_ a)).
  assert (Hb1 : lookup m1 (set_hash_imp_ b) = Some vb)
    by (unfold m1; now rewrite lookup_release_ne).
  pose proof (alloc_not_live m1 _ _ Hb1) as Hfresh.
  eexists. eexists. split; [reflexivity|]. cbn [set_hash_imp_].
  repeat apply conj.
  - apply lookup_store_eq.
  - now rewrite lookup_store_ne.
  - exact Hfresh.
  - intros Hd. rewrite lookup_store_ne by exact Hd.
    apply lookup_release_eq.
Qed.

(** The constructor from an rvalue shares the implementation: what is
    added through the new handle shows through the old one, and
    destroying both handles deletes the implementation twice. *)
Theorem move_shares (a : SetHashObj) (m : heap) (v : SetHashImpl)
        (x : list byte) :
  lookup m (set_hash_imp_ a) = Some v ->
  exists b,
    SetHash_move a m = Done b m /\
    (exists m1,
        SetHashHandle.add_element b x m = Done tt m1 /\
        SetHashHandle.hex a m1
        = Done (SetHash.hex (SetHash.add_element v x)) m1) /\
    (exists m2, destroy a m = Done tt m2 /\ destroy b m2 = Fault) /\
    (exists m2, destroy b m = Done tt m2 /\ destroy a m2 = Fault).
Proof.
  intros Ha. eexists. split; [reflexivity|]. cbn [set_hash_imp_].
  repeat apply conj.
  - eexists. split.
    + unfold SetHashHandle.add_element, update. cbn [set_hash_imp_].
      rewrite Ha. reflexivity.
    + unfold SetHashHandle.hex. now rewrite lookup_store_eq.
  - eexists. split.
    + unfold destroy. rewrite Ha. reflexivity.
    + unfold destroy. cbn [set_hash_imp_]. now rewrite lookup_release_eq.
  - eexists. split.
    + unfold destroy. cbn [set_hash_imp_]. rewrite Ha. reflexivity.
    + unfold destroy. now rewrite lookup_release_eq.
Qed.

Hypothesis decode_encode : forall a : State, decode (encode a) = Some a.
Hypothesis equal_spec : forall a b : State, equal a b = true <-> a = b.

Lemma of_hex_hex_impl (v : SetHashImpl) :
  SetHashImpl_of_hex (SetHash.hex v) = Some v.
Proof.
  unfold SetHashImpl_of_hex, SetHash.hex, from_hex, to_hex.
  rewrite bytes_of_hex_of_bytes, decode_encode. now destruct v.
Qed.

(** The copy constructor goes through the hexadecimal string.  The copy
    is equal to the original and has an implementation of its own: an
    element added to the copy is not added to the original. *)
Theorem copy_is_independent (o : SetHashObj) (m : heap) (v : SetHashImpl)
        (x : list byte) :
  lookup m (set_hash_imp_ o) = Some v ->
  exists c m' m'',
    SetHash_copy o m = Done c m' /\
    SetHashHandle.eq c o m' = Done true m' /\
    SetHashHandle.add_element c x m' = Done tt m'' /\
    lookup m'' (set_hash_imp_ c) = Some (SetHash.add_element v x) /\
    lookup m'' (set_hash_imp_ o) = Some v.
Proof.
  intros Ho. pose proof (alloc_not_live m _ _ Ho) as Hfresh.
  unfold SetHash_copy, SetHash_of_hex. rewrite Ho, of_hex_hex_impl.
  eexists. eexists. eexists. split; [reflexivity|]. cbn [set_hash_imp_].
  repeat apply conj.
  - unfold SetHashHandle.eq. cbn [set_hash_imp_].
    rewrite lookup_store_eq, lookup_store_ne, Ho by exact Hfresh.
    f_equal. unfold eqb. now apply equal_spec.
  - unfold SetHashHandle.add_element, update. cbn [set_hash_imp_].
    rewrite lookup_store_eq. reflexivity.
  - apply lookup_store_eq.
  - rewrite !lookup_store_ne by exact Hfresh. exact Ho.
Qed.

(** [invert_set] returns a new handle on the inverted state and leaves
    the hash it is called on as it was, when the copy of the returned
    local object is elided.  When it is not, the returned handle shares
    the implementation of the local object, which is destroyed on
    return: the handle the caller gets has no live implementation. *)
Theorem invert_set_result (self : SetHashObj) (m : heap) (v : SetHashImpl) :
  lookup m (set_hash_imp_ self) = Some v ->
  (exists h m',
      invert_set true self m = Done h m' /\
      lookup m' (set_hash_imp_ h)
      = Some (SetHashImpl_of_state (SetHash.invert_set v)) /\
      lookup m' (set_hash_imp_ self) = Some v) /\
  (exists h m',
      invert_set false self m = Done h m' /\
      lookup m' (set_hash_imp_ h) = None /\
      SetHashHandle.hex h m' = Fault /\
      lookup m' (set_hash_imp_ self) = Some v).
Proof.
  intros Hs. pose proof (alloc_not_live m _ _ Hs) as Hfresh.
  unfold invert_set, SetHash_new. cbn [set_hash_imp_].
  rewrite lookup_store_eq, lookup_store_ne, Hs by exact Hfresh.
  split.
  - eexists. eexists. split; [reflexivity|]. cbn [set_hash_imp_]. split.
    + apply lookup_store_eq.
    + now rewrite !lookup_store_ne by exact Hfresh.
  - unfold SetHash_move, destroy. cbn [set_hash_imp_].
    rewrite lookup_store_eq.
    eexists. eexists. split; [reflexivity|]. cbn [set_hash_imp_].
    repeat apply conj.
    + apply lookup_release_eq.
    + unfold SetHashHandle.hex. cbn [set_hash_imp_].
      now rewrite lookup_release_eq.
    + rewrite lookup_release_ne, !lookup_store_ne by exact Hfresh.
      exact Hs.
Qed.

End HandleProperties.

(** ** The further properties on the small instance *)

Lemma encrypt_throw_untouched_witness :
  encrypt Toy.cipher [] [x21] 5 = (Throw invalid_argument, [x21], 5%nat) /\
  (@nil byte = [] /\ invalid_argument = invalid_argument /\
   [x21] = [x21] /\ 5%nat = 5%nat).
Proof.
  assert (E : encrypt Toy.cipher [] [x21] 5
              = (Throw invalid_argument, [x21], 5%nat)) by reflexivity.
  split; [exact E|].
  exact (encrypt_throw_untouched (prim := Toy.primitives)
           Toy.cipher _ _ _ _ _ _ E).
Defined.

Lemma toy_short_valid : valid_string [x21].
Proof. vm_compute. discriminate. Qed.

Lemma encrypt_twice_nonces_witness :
  exists ct1 ct2,
    encrypt Toy.cipher [x68; x69] [] 0 = (Normal tt, ct1, (0 + 16)%nat) /\
    encrypt Toy.cipher [x21] [] (0 + 16)%nat
    = (Normal tt, ct2, (0 + 32)%nat) /\
    firstn 16 ct1 = map entropy (seq 0 16) /\
    firstn 16 ct2 = map entropy (seq (0 + 16) 16).
Proof.
  apply (encrypt_twice_nonces (prim := Toy.primitives)
           Toy.cipher toy_seal_length);
    (discriminate || exact toy_plain_valid || exact toy_short_valid).
Defined.

Lemma toy_scenario_cipher_valid : valid_string Toy.scenario_cipher.
Proof. vm_compute. discriminate. Qed.

Lemma decrypt_normal_size_witness :
  decrypt Toy.cipher Toy.scenario_cipher [x21]
  = (Normal tt, Toy.scenario_plain) /\
  size Toy.scenario_plain = size Toy.scenario_cipher - NONCE_SIZE - TAG_SIZE /\
  1 <= size Toy.scenario_plain.
Proof.
  assert (E : decrypt Toy.cipher Toy.scenario_cipher [x21]
              = (Normal tt, Toy.scenario_plain)) by (vm_compute; reflexivity).
  split; [exact E|].
  exact (decrypt_normal_size (prim := Toy.primitives)
           Toy.cipher toy_open_length _ _ _ toy_scenario_cipher_valid E).
Defined.

Lemma decrypt_raw_threshold_witness :
  (size (repeat x00 31) < NONCE_SIZE + TAG_SIZE ->
   decrypt_raw Toy.cipher (repeat x00 31) []
   = (Throw invalid_argument, [])) /\
  (size (repeat x00 31) = NONCE_SIZE + TAG_SIZE ->
   decrypt Toy.cipher (repeat x00 31) [] = (Throw invalid_argument, [])) /\
  (NONCE_SIZE + TAG_SIZE <= size (repeat x00 31) <= SIZE_MAX ->
   size (repeat x00 31) - NONCE_SIZE - TAG_SIZE <= size (@nil byte) ->
   fst (decrypt_raw Toy.cipher (repeat x00 31) []) = Normal tt \/
   fst (decrypt_raw Toy.cipher (repeat x00 31) []) = Throw runtime_error).
Proof.
  exact (decrypt_raw_threshold (prim := Toy.primitives)
           Toy.cipher toy_open_length (repeat x00 31) []).
Defined.

Lemma encrypt_raw_frame_witness :
  (size (@nil byte) + NONCE_SIZE + TAG_SIZE <= size (repeat xff 40) ->
   encrypt_raw Toy.cipher [] (repeat xff 40) 0
   = (Normal (drawn_nonce 0 ++ sealed Toy.cipher (drawn_nonce 0) []
              ++ skipn (length (@nil byte) + 32) (repeat xff 40)),
      (0 + 16)%nat)) /\
  (size (repeat xff 40) < size (@nil byte) + NONCE_SIZE + TAG_SIZE ->
   fst (encrypt_raw Toy.cipher [] (repeat xff 40) 0) = Undefined).
Proof.
  exact (encrypt_raw_frame (prim := Toy.primitives)
           Toy.cipher toy_seal_length [] (repeat xff 40) 0%nat).
Defined.

Lemma toy_kDigestSize_pos : 0 < kDigestSize (KeyedHash := Toy.keyed_hash).
Proof. reflexivity. Qed.

Lemma toy_hmac_digest_length (key msg : list byte) :
  size (hmac_digest (KeyedHash := Toy.keyed_hash) key msg)
  = kDigestSize (KeyedHash := Toy.keyed_hash).
Proof. reflexivity. Qed.

Lemma toy_kDigestSize_divides :
  (kDigestSize (KeyedHash := Toy.keyed_hash) | 65536).
Proof. exists 1024. reflexivity. Qed.

Lemma prf_single_block_witness :
  prf 0 Toy.prf_key 10 (Some [x61])
  = Some (Normal (firstn (Z.to_nat 10)
                    (hmac_digest (Prf.base_ Toy.prf_key) [x61]))) /\
  size (firstn (Z.to_nat 10) (hmac_digest (Prf.base_ Toy.prf_key) [x61]))
  = 10.
Proof.
  apply (prf_single_block (H := Toy.keyed_hash) Toy.prf_key
           toy_kDigestSize_pos toy_hmac_digest_length 10 [x61] 0%nat).
  split; vm_compute; discriminate.
Defined.

Lemma prf_legacy_agrees_witness :
  exists r,
    PrfLegacy.prf Toy.prf_key 10 [x61] = PrfLegacy.Returned r /\
    prf 0 Toy.prf_key 10 (Some [x61]) = Some (Normal r) /\
    size r = 10.
Proof.
  apply (prf_legacy_agrees (H := Toy.keyed_hash) Toy.prf_key
           toy_kDigestSize_pos toy_hmac_digest_length 10 [x61] 0%nat).
  split; vm_compute; discriminate.
Defined.


Lemma prf_prefix_witness :
  exists r1 r2,
    prf (S (blocks_needed 130)) Toy.prf_key 130 (Some [x61])
    = Some (Normal r1) /\
    prf (S (blocks_needed 200)) Toy.prf_key 200 (Some [x61])
    = Some (Normal r2) /\
    r1 = firstn (Z.to_nat 130) r2.
Proof.
  apply (prf_prefix (H := Toy.keyed_hash) Toy.prf_key
           toy_kDigestSize_pos toy_hmac_digest_length 130 200 [x61]);
    vm_compute; (reflexivity || discriminate).
Defined.

Lemma prf_output_repeats_witness :
  exists r,
    prf (S (blocks_needed 16500)) Toy.prf_key 16500 (Some [x61])
    = Some (Normal r) /\
    nth_error r (Z.to_nat (5 + 256 * kDigestSize))
    = nth_error r (Z.to_nat 5) /\
    nth_error r (Z.to_nat 5) <> None.
Proof.
  apply (prf_output_repeats (H := Toy.keyed_hash) Toy.prf_key
           toy_kDigestSize_pos toy_hmac_digest_length 16500 5 [x61]);
    vm_compute; (reflexivity || discriminate).
Defined.

Lemma prf_diverges_above_witness :
  prf 2000 Toy.prf_key 65500 (Some [x61]) = None.
Proof.
  apply (prf_diverges_above (H := Toy.keyed_hash) Toy.prf_key
           toy_kDigestSize_pos toy_kDigestSize_divides 65500 [x61] 2000%nat).
  - reflexivity.
  - split; vm_compute; (reflexivity || discriminate).
Defined.

(** *** The group of three elements and the allocator meet the
    hypotheses *)

Lemma z3_assoc (a b c : Toy.z3) :
  Toy.z3_add a (Toy.z3_add b c) = Toy.z3_add (Toy.z3_add a b) c.
Proof. now destruct a, b, c. Qed.

Lemma z3_comm (a b : Toy.z3) : Toy.z3_add a b = Toy.z3_add b a.
Proof. now destruct a, b. Qed.

Lemma z3_identity (a : Toy.z3) : Toy.z3_add a Toy.Z0 = a.
Proof. now destruct a. Qed.

Lemma z3_inverse (a : Toy.z3) : Toy.z3_add a (Toy.z3_neg a) = Toy.Z0.
Proof. now destruct a. Qed.

Lemma z3_equal_spec (a b : Toy.z3) : Toy.z3_eqb a b = true <-> a = b.
Proof. destruct a, b; split; intros; (reflexivity || discriminate). Qed.

Lemma z3_decode_encode (a : Toy.z3) :
  decode (Engine := Toy.engine3) (encode (Engine := Toy.engine3) a) = Some a.
Proof. now destruct a. Qed.

Lemma lookup_above (m : SetHashHandle.heap (E := Toy.engine3)) (p : nat) :
  (fold_right Nat.max 0 (map fst m) < p)%nat ->
  SetHashHandle.lookup m p = None.
Proof.
  induction m as [|[q v] m IH]; simpl; intros Hp; [reflexivity|].
  destruct (Nat.eqb_spec q p); [lia|]. apply IH. lia.
Qed.

Lemma bump_fresh (m : SetHashHandle.heap (E := Toy.engine3)) :
  SetHashHandle.lookup m (SetHashHandle.alloc (Allocator := Toy.bump) m)
  = None.
Proof. apply lookup_above. simpl. lia. Qed.

Section SmallInstance.

#[local] Existing Instance Toy.engine3.
#[local] Existing Instance Toy.bump.

Lemma add_elements_permutation_witness :
  eqb (SetHashHandle.add_elements SetHashImpl_new [[x61]; [x62; x63]; []])
      (SetHashHandle.add_elements SetHashImpl_new [[]; [x61]; [x62; x63]])
  = true.
Proof.
  apply (add_elements_permutation (E := Toy.engine3)
           z3_assoc z3_comm z3_identity z3_equal_spec).
  apply Permutation_sym, (Permutation_cons_append [[x61]; [x62; x63]] []).
Defined.

Lemma add_set_add_elements_witness :
  eqb (add_set (SetHashHandle.add_elements SetHashImpl_new [[x61]])
               (SetHashHandle.add_elements SetHashImpl_new [[x62; x63]]))
      (SetHashHandle.add_elements SetHashImpl_new ([[x61]] ++ [[x62; x63]]))
  = true.
Proof.
  exact (add_set_add_elements (E := Toy.engine3)
           z3_assoc z3_comm z3_identity z3_equal_spec
           SetHashImpl_new [[x61]] [[x62; x63]]).
Defined.

Lemma remove_set_invert_set_witness :
  let h := Toy.h1 in
  let g := Toy.h2 in
  eqb (remove_set (add_set h g) g) h = true /\
  eqb (remove_set h g) (add_set h (SetHashImpl_of_state (invert_set g)))
  = true /\
  eqb (add_set h (SetHashImpl_of_state (invert_set h))) SetHashImpl_new
  = true /\
  eqb (SetHashImpl_of_state
         (invert_set (SetHashImpl_of_state (invert_set h)))) h = true.
Proof.
  exact (remove_set_invert_set (E := Toy.engine3)
           z3_assoc z3_comm z3_identity z3_inverse z3_equal_spec
           Toy.h1 Toy.h2).
Defined.

Lemma remove_element_anywhere_witness :
  eqb (remove_element
         (SetHashHandle.add_elements SetHashImpl_new
            ([[x62; x63]] ++ [x61] :: [[]])) [x61])
      (SetHashHandle.add_elements SetHashImpl_new ([[x62; x63]] ++ [[]]))
  = true /\
  eqb (add_element (remove_element SetHashImpl_new [x61]) [x61])
      SetHashImpl_new = true.
Proof.
  exact (remove_element_anywhere (E := Toy.engine3)
           z3_assoc z3_comm z3_identity z3_inverse z3_equal_spec
           SetHashImpl_new [x61] [[x62; x63]] [[]]).
Defined.

Lemma assign_copies_witness :
  exists a' m',
    SetHashHandle.assign Toy.at1 Toy.at2 Toy.store2 = SetHashHandle.Done a' m' /\
    SetHashHandle.lookup m' (SetHashHandle.set_hash_imp_ a')
    = Some Toy.h2 /\
    SetHashHandle.lookup m' (SetHashHandle.set_hash_imp_ Toy.at2)
    = Some Toy.h2 /\
    SetHashHandle.set_hash_imp_ a' <> SetHashHandle.set_hash_imp_ Toy.at2 /\
    (SetHashHandle.set_hash_imp_ a' <> SetHashHandle.set_hash_imp_ Toy.at1 ->
     SetHashHandle.lookup m' (SetHashHandle.set_hash_imp_ Toy.at1) = None).
Proof.
  apply (assign_copies (E := Toy.engine3) (A := Toy.bump) bump_fresh
           Toy.at1 Toy.at2 Toy.store2 Toy.h1
           Toy.h2);
    (reflexivity || discriminate).
Defined.

Lemma move_shares_witness :
  exists b,
    SetHashHandle.SetHash_move Toy.at1 Toy.store2 = SetHashHandle.Done b Toy.store2 /\
    (exists m1,
        SetHashHandle.add_element b [x61] Toy.store2 = SetHashHandle.Done tt m1 /\
        SetHashHandle.hex Toy.at1 m1
        = SetHashHandle.Done
            (hex (add_element Toy.h1 [x61])) m1) /\
    (exists m2,
        SetHashHandle.destroy Toy.at1 Toy.store2 = SetHashHandle.Done tt m2 /\
        SetHashHandle.destroy b m2 = SetHashHandle.Fault) /\
    (exists m2,
        SetHashHandle.destroy b Toy.store2 = SetHashHandle.Done tt m2 /\
        SetHashHandle.destroy Toy.at1 m2 = SetHashHandle.Fault).
Proof.
  apply (move_shares (E := Toy.engine3) Toy.at1 Toy.store2
           Toy.h1 [x61]).
  reflexivity.
Defined.

Lemma copy_is_independent_witness :
  exists c m' m'',
    SetHashHandle.SetHash_copy Toy.at1 Toy.store2 = SetHashHandle.Done c m' /\
    SetHashHandle.eq c Toy.at1 m' = SetHashHandle.Done true m' /\
    SetHashHandle.add_element c [x61] m' = SetHashHandle.Done tt m'' /\
    SetHashHandle.lookup m'' (SetHashHandle.set_hash_imp_ c)
    = Some (add_element Toy.h1 [x61]) /\
    SetHashHandle.lookup m'' (SetHashHandle.set_hash_imp_ Toy.at1)
    = Some Toy.h1.
Proof.
  apply (copy_is_independent (E := Toy.engine3) (A := Toy.bump)
           bump_fresh z3_decode_encode z3_equal_spec
           Toy.at1 Toy.store2 Toy.h1 [x61]).
  reflexivity.
Defined.

Lemma invert_set_result_witness :
  (exists h m',
      SetHashHandle.invert_set true Toy.at1 Toy.store2 = SetHashHandle.Done h m' /\
      SetHashHandle.lookup m' (SetHashHandle.set_hash_imp_ h)
      = Some (SetHashImpl_of_state
                (invert_set Toy.h1)) /\
      SetHashHandle.lookup m' (SetHashHandle.set_hash_imp_ Toy.at1)
      = Some Toy.h1) /\
  (exists h m',
      SetHashHandle.invert_set false Toy.at1 Toy.store2 = SetHashHandle.Done h m' /\
      SetHashHandle.lookup m' (SetHashHandle.set_hash_imp_ h) = None /\
      SetHashHandle.hex h m' = SetHashHandle.Fault /\
      SetHashHandle.lookup m' (SetHashHandle.set_hash_imp_ Toy.at1)
      = Some Toy.h1).
Proof.
  apply (invert_set_result (E := Toy.engine3) (A := Toy.bump) bump_fresh
           Toy.at1 Toy.store2 Toy.h1).
  reflexivity.
Defined.

End SmallInstance.
